(** * editstruct: the struct-field type editor and its import manager

    A shallow embedding of [internal/editor] (editor.go and the import
    manager) and of the import inference of [internal/config].

    Conventions of the embedding.
    - A [token.Pos] is kept as the byte offset that
      [fset.Position(p).Offset] reports for it; the parentheses of a
      declaration, [Lparen] (which the code tests with [IsValid]) and
      [Rparen], are [option nat], with [None] for [token.NoPos].
    - The buffer [e.src] is a [list byte].  The idiom
      [append(src[:i], append([]byte(t), src[j:]...)...)] builds the
      inner slice in fresh memory before the outer append writes, so it
      denotes [src[:i] ++ t ++ src[j:]]; a slice expression out of range
      is a run-time panic, which is the [None] of the results below.
    - A Go [map[string]string] is a [gmap string string].  Where the code
      ranges over a map, the sequence in which the loop meets the entries
      is an explicit argument, and the map-level statement quantifies
      over every permutation of the entries. *)

From Stdlib Require Import Strings.Byte Strings.Ascii Strings.String.
From stdpp Require Import gmap strings list fin_maps option sorting.

Open Scope string_scope.
Open Scope nat_scope.
Open Scope list_scope.
Open Scope stdpp_scope.

(** ** Bytes and strings *)

#[global] Instance byte_eq_dec : EqDecision byte := Byte.byte_eq_dec.

(** [[]byte(s)] *)
Definition bytes (s : string) : list byte := list_byte_of_string s.

Definition quote : string := String "034" "".
Definition tab : string := String "009" "".
Definition nl : string := String "010" "".

(** [strings.TrimPrefix(s, "*")] *)
Definition TrimPrefix_star (s : string) : string :=
  match s with
  | String "*" s' => s'
  | _ => s
  end.

(** [strings.HasPrefix(s, "*")] *)
Definition HasPrefix_star (s : string) : bool :=
  match s with
  | String "*" _ => true
  | _ => false
  end.

(** The first occurrence of the separator [c] cuts [s] in two. *)
Fixpoint cut (c : ascii) (s : string) : option (string * string) :=
  match s with
  | EmptyString => None
  | String a s' =>
      if decide (a = c) then Some ("", s')
      else match cut c s' with
           | Some (l, r) => Some (String a l, r)
           | None => None
           end
  end.

(** [strings.SplitN(s, ".", 2)] *)
Definition SplitN2_dot (s : string) : list string :=
  match cut "." s with
  | Some (l, r) => [l; r]
  | None => [s]
  end.

(** [strings.Split(s, sep)] for a one-byte separator: never empty. *)
Fixpoint Split (c : ascii) (s : string) : list string :=
  match s with
  | EmptyString => [""]
  | String a s' =>
      if decide (a = c) then "" :: Split c s'
      else match Split c s' with
           | seg :: segs => String a seg :: segs
           | [] => [String a ""]
           end
  end.

Fixpoint TrimLeft (c : ascii) (s : string) : string :=
  match s with
  | String a s' => if decide (a = c) then TrimLeft c s' else s
  | EmptyString => s
  end.

Fixpoint TrimRight (c : ascii) (s : string) : string :=
  match s with
  | EmptyString => ""
  | String a s' =>
      match TrimRight c s' with
      | EmptyString => if decide (a = c) then "" else String a ""
      | t => String a t
      end
  end.

(** [strings.Trim(s, cutset)] for a one-byte cutset *)
Definition Trim (c : ascii) (s : string) : string := TrimRight c (TrimLeft c s).

(** [strings.Join(elems, sep)] *)
Fixpoint Join (elems : list string) (sep : string) : string :=
  match elems with
  | [] => ""
  | [x] => x
  | x :: rest => x +:+ sep +:+ Join rest sep
  end.

(** ** The syntax tree, as far as the editor reads it *)

(** [ast.Expr]: the five node kinds [typeString] has a case for, and one
    constructor for every other kind (its [default] branch).  Each node
    carries its [Pos()] and [End()]. *)
Inductive Expr : Type :=
| Ident (pos end_ : nat) (Name : string)
| SelectorExpr (pos end_ : nat) (X : Expr) (Sel : string)
| StarExpr (pos end_ : nat) (X : Expr)
| ArrayType (pos end_ : nat) (Elt : Expr)
| MapType (pos end_ : nat) (Key Value : Expr)
| OtherExpr (pos end_ : nat).

Definition Pos (e : Expr) : nat :=
  match e with
  | Ident p _ _ | SelectorExpr p _ _ _ | StarExpr p _ _
  | ArrayType p _ _ | MapType p _ _ _ | OtherExpr p _ => p
  end.

Definition End (e : Expr) : nat :=
  match e with
  | Ident _ q _ | SelectorExpr _ q _ _ | StarExpr _ q _
  | ArrayType _ q _ | MapType _ q _ _ | OtherExpr _ q => q
  end.

(** [ast.Field]: [Names] is empty for an embedded field. *)
Record Field : Type := mkField { Names : list string; Type_ : Expr }.

(** [ast.StructType] *)
Record StructType : Type := mkStruct { Fields : list Field }.

(** [ast.ImportSpec]: [Name] is [nil] without an explicit alias;
    [PathValue] is the literal with its quotes. *)
Record ImportSpec : Type := mkImport { Name : option string; PathValue : string }.

Inductive Spec : Type :=
| SImport (imp : ImportSpec)
| SType (name : string) (st : option StructType)
| SValue.

Inductive Token : Type := IMPORT | TYPE | CONST | VAR.

#[global] Instance Token_eq_dec : EqDecision Token.
Proof. solve_decision. Defined.

(** [ast.GenDecl] *)
Record GenDecl : Type := mkGenDecl {
  gPos : nat;
  gEnd : nat;
  Tok : Token;
  Lparen : option nat;
  Rparen : option nat;
  Specs : list Spec
}.

(** [ast.Decl] *)
Inductive Decl : Type :=
| DGen (gd : GenDecl)
| DFunc (pos : nat)
| DBad.

(** [ast.File] *)
Record File : Type := mkFile {
  Decls : list Decl;
  Imports : list ImportSpec;
  FileEnd : nat
}.

(** [fset.Position(p).Offset]: zero for [token.NoPos] *)
Definition Offset (p : option nat) : nat := default 0 p.

(** ** The editor *)

Record importManager : Type := mkIM {
  im_file : File;
  existing : gmap string string
}.

Record Editor : Type := mkEditor {
  file : File;
  src : list byte;
  imports : importManager
}.

(** A Go [error] value: [None] is [nil]. *)
Definition error : Type := option string.

Fixpoint typeString (expr : Expr) : string :=
  match expr with
  | Ident _ _ name => name
  | SelectorExpr _ _ x sel => typeString x +:+ "." +:+ sel
  | StarExpr _ _ x => "*" +:+ typeString x
  | ArrayType _ _ elt => "[]" +:+ typeString elt
  | MapType _ _ k v => "map[" +:+ typeString k +:+ "]" +:+ typeString v
  | OtherExpr _ _ => ""
  end.

(** [append(b[:i], append([]byte(t), b[j:]...)...)]; [None] when a slice
    bound is out of range.  With [i <= j], as for every node of a parsed
    tree, the test is [j <= len(b)]. *)
Definition splice (b : list byte) (i j : nat) (t : string) : option (list byte) :=
  if decide (i ≤ length b ∧ j ≤ length b)
  then Some (take i b ++ bytes t ++ drop j b)
  else None.

Definition replaceType (b : list byte) (expr : Expr) (newType : string)
  : option (list byte) :=
  splice b (Pos expr) (End expr) newType.

(** A [range] loop whose body may panic, threading the state [S]. *)
Fixpoint foldM {S A : Type} (body : S → A → option S) (s : S) (l : list A)
  : option S :=
  match l with
  | [] => Some s
  | x :: l' => s' ← body s x; foldM body s' l'
  end.

(** The body of the inner loop of [editFields]; the state is the flag
    [modified] and the buffer. *)
Definition editName (fieldEdits : gmap string string) (ty : Expr)
    (st : bool * list byte) (name : string) : option (bool * list byte) :=
  match fieldEdits !! name with
  | None => Some st
  | Some newType =>
      if decide (typeString ty = newType) then Some st
      else b' ← replaceType st.2 ty newType; Some (true, b')
  end.

(** The body of the outer loop of [editFields]. *)
Definition editField (fieldEdits : gmap string string)
    (st : bool * list byte) (field : Field) : option (bool * list byte) :=
  match Names field with
  | [] => Some st
  | names => foldM (editName fieldEdits (Type_ field)) st names
  end.

Definition editFields (st : StructType) (fieldEdits : gmap string string)
    (b : list byte) : option (bool * list byte) :=
  foldM (editField fieldEdits) (false, b) (Fields st).

(** The body of the loop over [gd.Specs] in [EditStruct]. *)
Definition editSpec (structName : string) (fieldEdits : gmap string string)
    (st : bool * list byte) (spec : Spec) : option (bool * list byte) :=
  match spec with
  | SType name ty =>
      if decide (name = structName) then
        match ty with
        | Some s =>
            match editFields s fieldEdits st.2 with
            | Some (changed, b') => Some (if changed then true else st.1, b')
            | None => None
            end
        | None => Some st
        end
      else Some st
  | _ => Some st
  end.

(** The body of the loop over [e.file.Decls] in [EditStruct]. *)
Definition editDecl (structName : string) (fieldEdits : gmap string string)
    (st : bool * list byte) (decl : Decl) : option (bool * list byte) :=
  match decl with
  | DGen gd =>
      if decide (Tok gd = TYPE)
      then foldM (editSpec structName fieldEdits) st (Specs gd)
      else Some st
  | _ => Some st
  end.

Definition EditStruct (structName : string) (fieldEdits : gmap string string)
    (e : Editor) : option (bool * error * Editor) :=
  match foldM (editDecl structName fieldEdits) (false, src e) (Decls (file e)) with
  | Some (modified, b) => Some (modified, None, mkEditor (file e) b (imports e))
  | None => None
  end.

Definition Source (e : Editor) : list byte := src e.

(** ** The import manager *)

Record importSpec : Type := mkSpec { alias : string; path : string }.

(** The local name an import statement binds, as [newImportManager]
    computes it: the explicit name, else the last segment of the path. *)
Definition importName (imp : ImportSpec) : string :=
  let parts := Split "/" (Trim "034" (PathValue imp)) in
  match Name imp with
  | Some name => name
  | None => List.last parts ""
  end.

Definition newImportManager (f : File) : importManager :=
  mkIM f (fold_left
            (λ ex imp, <[importName imp := Trim "034" (PathValue imp)]> ex)
            (Imports f) ∅).

(** The first loop of [add], over the entries of [required] in the
    sequence [order]: the list [toAdd] and the updated [im.existing]. *)
Fixpoint collect (order : list (string * string)) (ex : gmap string string)
  : list importSpec * gmap string string :=
  match order with
  | [] => ([], ex)
  | (a, pkgPath) :: rest =>
      match ex !! a with
      | None =>
          let '(toAdd, ex') := collect rest (<[a := pkgPath]> ex) in
          (mkSpec a pkgPath :: toAdd, ex')
      | Some _ => collect rest ex
      end
  end.

Fixpoint findInsertPosition_from (decls : list Decl) (fileEnd : nat) : nat :=
  match decls with
  | [] => fileEnd
  | DGen d :: rest =>
      if decide (Tok d = IMPORT) then findInsertPosition_from rest fileEnd
      else gPos d
  | DFunc p :: _ => p
  | DBad :: rest => findInsertPosition_from rest fileEnd
  end.

Definition findInsertPosition (im : importManager) : nat :=
  findInsertPosition_from (Decls (im_file im)) (FileEnd (im_file im)).

(** [fmt.Sprintf("\t\"%s\"", spec.path)] *)
Definition newLine (spec : importSpec) : string :=
  tab +:+ quote +:+ path spec +:+ quote.

Definition insertNewImportBlock (im : importManager) (toAdd : list importSpec)
    (b : list byte) : option (error * list byte) :=
  let start := findInsertPosition im in
  let lines := ["import ("] ++ map newLine toAdd ++ [")" +:+ nl +:+ nl] in
  let newBlock := Join lines nl in
  b' ← splice b start start newBlock; Some (None, b').

Definition specString (spec : Spec) : string :=
  match spec with
  | SImport imp =>
      match Name imp with
      | Some name => name +:+ " " +:+ PathValue imp
      | None => PathValue imp
      end
  | _ => ""
  end.

Definition addToBlock (importDecl : GenDecl) (toAdd : list importSpec)
    (b : list byte) : option (error * list byte) :=
  let start := Offset (Lparen importDecl) in
  let end_ := Offset (Rparen importDecl) + 1 in
  let existingImports :=
    map (λ imp, tab +:+ specString imp) (Specs importDecl) ++ map newLine toAdd in
  let newBlock := "(" +:+ nl +:+ Join existingImports nl +:+ nl +:+ ")" in
  b' ← splice b start end_ newBlock; Some (None, b').

Fixpoint findImportDecl_from (decls : list Decl) : option GenDecl :=
  match decls with
  | [] => None
  | DGen gd :: rest =>
      if decide (Tok gd = IMPORT) then Some gd else findImportDecl_from rest
  | _ :: rest => findImportDecl_from rest
  end.

Definition findImportDecl (im : importManager) : option GenDecl :=
  findImportDecl_from (Decls (im_file im)).

(** [convertToBlock] returns from inside its loop at the first import
    declaration, which is the one [findImportDecl] finds. *)
Definition convertToBlock (im : importManager) (toAdd : list importSpec)
    (b : list byte) : option (error * list byte) :=
  match findImportDecl_from (Decls (im_file im)) with
  | Some gd =>
      let start := gPos gd in
      let end_ := gEnd gd in
      let imports :=
        map (λ spec, tab +:+ specString spec) (Specs gd) ++ map newLine toAdd in
      let newBlock := "import (" +:+ nl +:+ Join imports nl +:+ nl +:+ ")" in
      b' ← splice b start end_ newBlock; Some (None, b')
  | None => Some (Some "no import declaration found", b)
  end.

(** [importManager.add]; [order] is the sequence in which the range loop
    meets the entries of [required]. *)
Definition add (order : list (string * string)) (im : importManager)
    (b : list byte) : option (error * importManager * list byte) :=
  let '(toAdd, ex') := collect order (existing im) in
  let im' := mkIM (im_file im) ex' in
  let finish (r : option (error * list byte)) :=
    '(err, b') ← r; Some (err, im', b') in
  match toAdd with
  | [] => Some (None, im', b)
  | _ =>
      match Imports (im_file im') with
      | [] => finish (insertNewImportBlock im' toAdd b)
      | _ =>
          match findImportDecl im' with
          | Some importDecl =>
              if decide (is_Some (Lparen importDecl))
              then finish (addToBlock importDecl toAdd b)
              else finish (convertToBlock im' toAdd b)
          | None => finish (convertToBlock im' toAdd b)
          end
      end
  end.

Definition AddImports_in (order : list (string * string)) (e : Editor)
  : option (error * Editor) :=
  '(err, im', b') ← add order (imports e) (src e);
  Some (err, mkEditor (file e) b' im').

(** [Editor.AddImports]: the outcomes of a call, one for each sequence in
    which the range loop may meet the entries of [required]. *)
Definition AddImports (required : gmap string string) (e : Editor)
    (out : option (error * Editor)) : Prop :=
  ∃ order, order ≡ₚ map_to_list required ∧ out = AddImports_in order e.

(** What the return statement of [ParseFile] builds from the parser's
    tree and the bytes read. *)
Definition newEditor (f : File) (b : list byte) : Editor :=
  mkEditor f b (newImportManager f).

(** ** Import inference *)

Section TypeStrings.

(** [strings.TrimSpace], whose Unicode tables are not part of the
    repository *)
Variable TrimSpace : string → string.

Definition ParseTypeString (typeStr : string) : string * string * bool :=
  let typeStr := TrimSpace typeStr in
  let isPointer := HasPrefix_star typeStr in
  let typeStr := if isPointer then TrimPrefix_star typeStr else typeStr in
  match SplitN2_dot typeStr with
  | [p0; p1] => (p0, p1, isPointer)
  | _ => ("", typeStr, isPointer)
  end.

(** [Editor.RequiredImports], over the values of [fieldEdits] in the
    sequence [order] *)
Definition RequiredImports_in (order : list (string * string))
  : gmap string string :=
  fold_left
    (λ imports kv,
       let '(pkgPath, _, _) := ParseTypeString kv.2 in
       if decide (pkgPath = "") then imports else <[pkgPath := pkgPath]> imports)
    order ∅.

End TypeStrings.

Module config.

Record TypeConfig : Type := mkTypeConfig {
  Type_name : string;
  Fields_of : gmap string string
}.

Definition parseQualifiedType (typeStr : string) : string * string * bool :=
  let typeStr := TrimPrefix_star typeStr in
  match SplitN2_dot typeStr with
  | [p0; _] => (p0, p0, true)
  | _ => ("", "", false)
  end.

(** [TypeConfig.Imports], over the entries of [tc.Fields] in the
    sequence [order] *)
Definition Imports_in (order : list (string * string)) : gmap string string :=
  fold_left
    (λ imports kv,
       match parseQualifiedType kv.2 with
       | (pkg, a, true) => <[a := pkg]> imports
       | _ => imports
       end)
    order ∅.

Definition Imports (tc : TypeConfig) (out : gmap string string) : Prop :=
  ∃ order, order ≡ₚ map_to_list (Fields_of tc) ∧ out = Imports_in order.

End config.

Definition StructNames (e : Editor) : list string :=
  flat_map
    (λ decl,
       match decl with
       | DGen gd =>
           if decide (Tok gd = TYPE)
           then flat_map (λ spec, match spec with
                                  | SType name _ => [name]
                                  | _ => []
                                  end) (Specs gd)
           else []
       | _ => []
       end)
    (Decls (file e)).

(** ** The splices a call of [EditStruct] attempts

    Whether a type is replaced is decided from the tree and the edit
    mapping alone, so the replacements of one call can be listed without
    running it: the expression to replace and the new text, in the order
    in which the loops reach them. *)

Definition pending_name (fieldEdits : gmap string string) (ty : Expr)
    (name : string) : list (Expr * string) :=
  match fieldEdits !! name with
  | Some newType => if decide (typeString ty = newType) then [] else [(ty, newType)]
  | None => []
  end.

Definition pending_field (fieldEdits : gmap string string) (field : Field)
  : list (Expr * string) :=
  flat_map (pending_name fieldEdits (Type_ field)) (Names field).

Definition pending_struct (fieldEdits : gmap string string) (st : StructType)
  : list (Expr * string) :=
  flat_map (pending_field fieldEdits) (Fields st).

Definition pending_spec (structName : string) (fieldEdits : gmap string string)
    (spec : Spec) : list (Expr * string) :=
  match spec with
  | SType name (Some st) =>
      if decide (name = structName) then pending_struct fieldEdits st else []
  | _ => []
  end.

Definition pending_decl (structName : string) (fieldEdits : gmap string string)
    (decl : Decl) : list (Expr * string) :=
  match decl with
  | DGen gd =>
      if decide (Tok gd = TYPE)
      then flat_map (pending_spec structName fieldEdits) (Specs gd)
      else []
  | _ => []
  end.

Definition pendingEdits (f : File) (structName : string)
    (fieldEdits : gmap string string) : list (Expr * string) :=
  flat_map (pending_decl structName fieldEdits) (Decls f).

(** The replacements of [l], one after the other on the current buffer,
    each at the offsets its expression had at parse time. *)
Definition runEdits (l : list (Expr * string)) (b : list byte)
  : option (list byte) :=
  foldM (λ b ed, replaceType b ed.1 ed.2) b l.

Definition nonempty {A : Type} (l : list A) : bool :=
  match l with
  | [] => false
  | _ => true
  end.

(** The outcome of a loop that attempts the replacements [l] from the
    buffer [b] with the flag at [m]. *)
Definition track (l : list (Expr * string)) (m : bool) (b : list byte)
  : option (bool * list byte) :=
  (λ b', (m || nonempty l, b')) <$> runEdits l b.

(** No new text is shorter than the span it replaces. *)
Definition no_shrink (l : list (Expr * string)) : Prop :=
  ∀ ed, ed ∈ l → End ed.1 - Pos ed.1 ≤ String.length ed.2.

Definition in_range (l : list (Expr * string)) (n : nat) : Prop :=
  ∀ ed, ed ∈ l → Pos ed.1 ≤ n ∧ End ed.1 ≤ n.

(** ** The reference behaviour of the splice engine

    The specification's contract for several edits: the spans are those
    of the original buffer, and the edits are applied in strictly
    descending order of span start, so that an edit already applied
    never moves a span still to be replaced. *)

Definition starts_after (x y : Expr * string) : Prop := Pos y.1 ≤ Pos x.1.

#[global] Instance starts_after_dec : RelDecision starts_after.
Proof. intros x y. unfold starts_after. apply _. Defined.

Definition spec_applyEdits (l : list (Expr * string)) (b : list byte)
  : option (list byte) :=
  runEdits (merge_sort starts_after l) b.

(** [s] has no dot in it. *)
Definition no_dot (s : string) : Prop := ∀ l r, s ≠ l +:+ "." +:+ r.

(** ** Where the loops of [EditStruct] look *)

(** [name] is declared by a type specification of the file, with the
    struct type [ty] when its underlying type is one. *)
Definition type_spec_of (f : File) (name : string) (ty : option StructType)
  : Prop :=
  ∃ gd, DGen gd ∈ Decls f ∧ Tok gd = TYPE ∧ SType name ty ∈ Specs gd.

Definition struct_of (f : File) (name : string) (st : StructType) : Prop :=
  type_spec_of f name (Some st).

(** ** Rendering of import blocks, for the statements below *)

Definition quoted (s : string) : string := quote +:+ s +:+ quote.

(** One line per entry between the parentheses. *)
Definition line_then (e rest : string) : string := tab +:+ e +:+ nl +:+ rest.

Definition paren_block (entries : list string) : string :=
  "(" +:+ nl +:+ fold_right line_then ")" entries.

Definition import_block (entries : list string) : string :=
  "import " +:+ paren_block entries.

(** The lines the three writers build, for the new entries [toAdd]. *)
Definition new_entries (toAdd : list importSpec) : list string :=
  map (λ spec, quoted (path spec)) toAdd.

(** ** Parsed files used in the examples

    Each tree is the one [go/parser] builds for the source text next to
    it, with the offsets of the nodes the editor reads. *)

(** The struct of the README. *)
Definition src_readme : string :=
  "package test; type Example struct { ID int64; Total *int64 }".

Definition ty_ID : Expr := Ident 39 44 "int64".
Definition ty_Total : Expr := StarExpr 52 58 (Ident 53 58 "int64").

Definition file_readme : File :=
  mkFile
    [DGen (mkGenDecl 14 60 TYPE None None
             [SType "Example"
                (Some (mkStruct [mkField ["ID"] ty_ID;
                                 mkField ["Total"] ty_Total]))])]
    [] 60.

Definition ed_readme : Editor := newEditor file_readme (bytes src_readme).

(** Two fields followed by comments. *)
Definition src_comments : string :=
  "package test; type Example struct { A map[string]int /* key */; B int /* count of b */ }".

Definition file_comments : File :=
  mkFile
    [DGen (mkGenDecl 14 88 TYPE None None
             [SType "Example"
                (Some (mkStruct
                   [mkField ["A"] (MapType 38 52 (Ident 42 48 "string")
                                                 (Ident 49 52 "int"));
                    mkField ["B"] (Ident 66 69 "int")]))])]
    [] 88.

Definition ed_comments : Editor := newEditor file_comments (bytes src_comments).

(** An embedded field between two named ones. *)
Definition src_embedded : string :=
  "package test; type Example struct { A int; Base; B int }".

Definition file_embedded : File :=
  mkFile
    [DGen (mkGenDecl 14 56 TYPE None None
             [SType "Example"
                (Some (mkStruct
                   [mkField ["A"] (Ident 38 41 "int");
                    mkField [] (Ident 43 47 "Base");
                    mkField ["B"] (Ident 51 54 "int")]))])]
    [] 56.

Definition ed_embedded : Editor := newEditor file_embedded (bytes src_embedded).

(** A field whose type is much longer than its replacement. *)
Definition src_nested : string :=
  "package test; type T struct { A map[string]map[string]int }".

Definition file_nested : File :=
  mkFile
    [DGen (mkGenDecl 14 59 TYPE None None
             [SType "T"
                (Some (mkStruct
                   [mkField ["A"]
                      (MapType 32 57 (Ident 36 42 "string")
                         (MapType 43 57 (Ident 47 53 "string")
                                        (Ident 54 57 "int")))]))])]
    [] 59.

Definition ed_nested : Editor := newEditor file_nested (bytes src_nested).




(** A single import statement without parentheses. *)
Definition src_single : string :=
  "package test; import " +:+ quoted "fmt" +:+ "; type Example struct { ID int64 }".

Definition decl_single : GenDecl :=
  mkGenDecl 14 26 IMPORT None None [SImport (mkImport None (quoted "fmt"))].

Definition file_single : File :=
  mkFile
    [DGen decl_single;
     DGen (mkGenDecl 28 60 TYPE None None
             [SType "Example"
                (Some (mkStruct [mkField ["ID"] (Ident 53 58 "int64")]))])]
    [mkImport None (quoted "fmt")] 60.

Definition ed_single : Editor := newEditor file_single (bytes src_single).

(** An import block, one entry with an explicit name. *)
Definition src_block : string :=
  "package test; import ( " +:+ quoted "fmt" +:+ "; t " +:+ quoted "time"
  +:+ " ); type Example struct { ID int64 }".

Definition decl_block : GenDecl :=
  mkGenDecl 14 40 IMPORT (Some 21) (Some 39)
    [SImport (mkImport None (quoted "fmt"));
     SImport (mkImport (Some "t") (quoted "time"))].

Definition file_block : File :=
  mkFile
    [DGen decl_block;
     DGen (mkGenDecl 42 74 TYPE None None
             [SType "Example"
                (Some (mkStruct [mkField ["ID"] (Ident 67 72 "int64")]))])]
    [mkImport None (quoted "fmt"); mkImport (Some "t") (quoted "time")] 74.

Definition ed_block : Editor := newEditor file_block (bytes src_block).

(** A tree that lists an import without any import declaration: no
    parsed file is like this. *)
Definition file_orphan : File :=
  mkFile [] [mkImport None (quoted "fmt")] 12.

Definition ed_orphan : Editor := newEditor file_orphan (bytes "package test").

(** The text between two offsets of a buffer, for reading the examples. *)
Definition slice (b : list byte) (i j : nat) : string :=
  string_of_list_byte (take (j - i) (drop i b)).

(** ** Vocabulary for the further properties *)

(** The loops of [EditStruct] reach a named field of a struct of that
    name whose type expression [ty] is requested to become [t], and [t]
    is not the rendering of [ty]. *)
Definition requested (f : File) (structName : string)
    (fieldEdits : gmap string string) (ty : Expr) (t : string) : Prop :=
  ∃ st field name,
    struct_of f structName st ∧ field ∈ Fields st ∧ name ∈ Names field
    ∧ fieldEdits !! name = Some t ∧ typeString (Type_ field) ≠ t
    ∧ ty = Type_ field.

(** The offset [k] lies in the span of [ty]. *)
Definition in_span (ty : Expr) (k : nat) : Prop := Pos ty ≤ k ∧ k < End ty.

(** The byte [c] does not occur in [s]. *)
Definition absent (c : ascii) (s : string) : Prop :=
  ∀ l r, s ≠ l +:+ String c r.

(** [Editor.RequiredImports]: the outcomes of a call, one for each
    sequence in which the range loop may meet the entries. *)
Definition RequiredImports (TrimSpace : string → string)
    (fieldEdits : gmap string string) (out : gmap string string) : Prop :=
  ∃ order, order ≡ₚ map_to_list fieldEdits
           ∧ out = RequiredImports_in TrimSpace order.

(** The declarations [findInsertPosition] passes over, and the position
    it returns for the others. *)
Definition passed_over (d : Decl) : Prop :=
  match d with
  | DGen gd => Tok gd = IMPORT
  | DFunc _ => False
  | DBad => True
  end.

Definition declPos (d : Decl) : nat :=
  match d with
  | DGen gd => gPos gd
  | DFunc p => p
  | DBad => 0
  end.

(** The body of the loop of [newImportManager]. *)
Definition bind_import (ex : gmap string string) (imp : ImportSpec)
  : gmap string string :=
  <[importName imp := Trim "034" (PathValue imp)]> ex.

#[global] Instance Expr_eq_dec : EqDecision Expr.
Proof. solve_decision. Defined.

(** Two replacements are the same one or their spans have no offset in
    common. *)
Definition apart (x y : Expr * string) : Prop :=
  x = y ∨ ∀ k, ¬ (in_span x.1 k ∧ in_span y.1 k).

(** ** The file finder of the command

    [strings.HasSuffix] *)
Fixpoint HasSuffix (s suffix : string) : bool :=
  if decide (s = suffix) then true
  else match s with
       | String _ s' => HasSuffix s' suffix
       | EmptyString => false
       end.

(** [os.DirEntry], as far as [findGoFiles] reads it *)
Record DirEntry : Type := mkDirEntry { entryName : string; IsDir : bool }.

(** [findGoFiles], given what [os.ReadDir(".")] returned: the entries or
    an error. *)
Definition findGoFiles (readDir : list DirEntry + string)
  : list string * error :=
  match readDir with
  | inr err => ([], Some err)
  | inl entries =>
      (flat_map
         (λ entry,
            if IsDir entry then []
            else
              let name := entryName entry in
              if HasSuffix name ".go" && negb (HasSuffix name "_test.go")
              then [name] else [])
         entries,
       None)
  end.

(** ** Further parsed files *)

(** An array and a channel: types [typeString] has no full case for. *)
Definition src_chan : string :=
  "package test; type Example struct { A [5]int; B chan int }".

Definition ty_array : Expr := ArrayType 38 44 (Ident 41 44 "int").
Definition ty_chan : Expr := OtherExpr 48 56.



(** An import whose path is written as a raw string literal. *)
Definition src_raw : string :=
  "package test; import `fmt`; type Example struct { ID int64 }".

Definition decl_raw : GenDecl :=
  mkGenDecl 14 26 IMPORT None None [SImport (mkImport None "`fmt`")].

Definition file_raw : File :=
  mkFile
    [DGen decl_raw;
     DGen (mkGenDecl 28 60 TYPE None None
             [SType "Example"
                (Some (mkStruct [mkField ["ID"] (Ident 53 58 "int64")]))])]
    [mkImport None "`fmt`"] 60.

Definition ed_raw : Editor := newEditor file_raw (bytes src_raw).

(** ** Reference notions, following the specification *)

(** The path an import statement names: the value of its string
    literal, written between double quotes or between back quotes. *)
Definition spec_importPath (imp : ImportSpec) : string :=
  match PathValue imp with
  | String "034" _ => Trim "034" (PathValue imp)
  | String "`" _ => Trim "`" (PathValue imp)
  | lit => lit
  end.

(** The alias an import statement binds (specification, 4.4 step 1):
    the explicit alias if present, else the last segment of the path. *)
Definition spec_alias (imp : ImportSpec) : string :=
  match Name imp with
  | Some name => name
  | None => List.last (Split "/" (spec_importPath imp)) ""
  end.

(** The qualifier of a type string as the specification infers it
    (section 6): strip a single leading pointer marker, then split on the
    first separator; a qualifier only if a separator is found. *)
Definition spec_qualifier (typeStr : string) : option string :=
  match cut "." (TrimPrefix_star typeStr) with
  | Some (qualifier, _) => Some qualifier
  | None => None
  end.

(** ** White space

    [strings.TrimSpace] on text without bytes above 127: the leading and
    the trailing bytes of its table [asciiSpace] are removed. *)
Definition asciiSpace (c : ascii) : bool :=
  bool_decide (c ∈ ["009"; "010"; "011"; "012"; "013"; " "]%char).

Fixpoint TrimLeftSpace (s : string) : string :=
  match s with
  | String a s' => if asciiSpace a then TrimLeftSpace s' else s
  | EmptyString => s
  end.

Fixpoint TrimRightSpace (s : string) : string :=
  match s with
  | EmptyString => ""
  | String a s' =>
      match TrimRightSpace s' with
      | EmptyString => if asciiSpace a then "" else String a ""
      | t => String a t
      end
  end.

Definition TrimSpace_ascii (s : string) : string :=
  TrimRightSpace (TrimLeftSpace s).

(** * Properties *)

(** ** The example trees match their sources *)

Example readme_spans :
  slice (bytes src_readme) (Pos ty_ID) (End ty_ID) = "int64"
  ∧ slice (bytes src_readme) (Pos ty_Total) (End ty_Total) = "*int64"
  ∧ length (bytes src_readme) = 60.
Proof. vm_compute. done. Qed.

Example comments_spans :
  slice (bytes src_comments) 38 52 = "map[string]int"
  ∧ slice (bytes src_comments) 66 69 = "int"
  ∧ slice (bytes src_comments) 70 86 = "/* count of b */".
Proof. vm_compute. done. Qed.

Example embedded_spans :
  slice (bytes src_embedded) 38 41 = "int"
  ∧ slice (bytes src_embedded) 43 47 = "Base"
  ∧ slice (bytes src_embedded) 51 54 = "int".
Proof. vm_compute. done. Qed.

Example nested_spans :
  slice (bytes src_nested) 32 57 = "map[string]map[string]int"
  ∧ length (bytes src_nested) = 59.
Proof. vm_compute. done. Qed.

Example single_spans :
  slice (bytes src_single) (gPos decl_single) (gEnd decl_single)
  = "import " +:+ quoted "fmt".
Proof. vm_compute. done. Qed.

Example block_spans :
  slice (bytes src_block) 21 40 = "( " +:+ quoted "fmt" +:+ "; t " +:+ quoted "time" +:+ " )"
  ∧ slice (bytes src_block) 14 21 = "import ".
Proof. vm_compute. done. Qed.

Example typeString_examples :
  typeString ty_Total = "*int64"
  ∧ typeString (SelectorExpr 0 9 (Ident 0 4 "time") "Time") = "time.Time"
  ∧ typeString (ArrayType 0 8 (Ident 2 8 "string")) = "[]string"
  ∧ typeString (MapType 0 16 (Ident 5 11 "string") (Ident 13 16 "int"))
    = "map[string]int"
  ∧ typeString (OtherExpr 0 6) = "".
Proof. vm_compute. done. Qed.

(** ** Loops *)

Lemma foldM_app {S A : Type} (body : S → A → option S) (s : S) (l1 l2 : list A) :
  foldM body s (l1 ++ l2) = foldM body s l1 ≫= λ s', foldM body s' l2.
Proof.
  revert s. induction l1 as [|x l1 IH]; intros s; simpl; [done|].
  destruct (body s x) as [s'|]; simpl; [apply IH|done].
Qed.

Lemma runEdits_app (l1 l2 : list (Expr * string)) (b : list byte) :
  runEdits (l1 ++ l2) b = runEdits l1 b ≫= runEdits l2.
Proof. apply foldM_app. Qed.

Lemma nonempty_app {A : Type} (l1 l2 : list A) :
  nonempty (l1 ++ l2) = nonempty l1 || nonempty l2.
Proof. by destruct l1. Qed.

Lemma track_app (l1 l2 : list (Expr * string)) (m : bool) (b : list byte) :
  track (l1 ++ l2) m b = track l1 m b ≫= λ st, track l2 st.1 st.2.
Proof.
  unfold track. rewrite runEdits_app, nonempty_app.
  destruct (runEdits l1 b) as [b1|]; simpl; [|done].
  by rewrite orb_assoc.
Qed.

Lemma foldM_track {A : Type} (body : bool * list byte → A → option (bool * list byte))
    (pend : A → list (Expr * string)) (l : list A) :
  (∀ m b x, x ∈ l → body (m, b) x = track (pend x) m b) →
  ∀ m b, foldM body (m, b) l = track (flat_map pend l) m b.
Proof.
  induction l as [|x l IH]; intros Hbody m b; simpl.
  - unfold track. simpl. by rewrite orb_false_r.
  - rewrite track_app, Hbody by left.
    destruct (track (pend x) m b) as [[m' b']|]; simpl; [|done].
    apply IH. intros ??? Hin. apply Hbody. by right.
Qed.

Lemma editName_track fieldEdits ty m b name :
  editName fieldEdits ty (m, b) name = track (pending_name fieldEdits ty name) m b.
Proof.
  unfold editName, pending_name, track.
  destruct (fieldEdits !! name) as [newType|]; simpl.
  - case_decide; simpl.
    + by rewrite orb_false_r.
    + unfold runEdits. simpl.
      destruct (replaceType b ty newType); simpl; [|done].
      by rewrite orb_true_r.
  - by rewrite orb_false_r.
Qed.

Lemma editField_track fieldEdits m b field :
  editField fieldEdits (m, b) field = track (pending_field fieldEdits field) m b.
Proof.
  unfold editField, pending_field.
  rewrite <- (foldM_track (editName fieldEdits (Type_ field))).
  - by destruct (Names field).
  - intros. apply editName_track.
Qed.

Lemma editFields_track fieldEdits st b :
  editFields st fieldEdits b = track (pending_struct fieldEdits st) false b.
Proof.
  unfold editFields, pending_struct. apply foldM_track.
  intros. apply editField_track.
Qed.

Lemma editSpec_track structName fieldEdits m b spec :
  editSpec structName fieldEdits (m, b) spec
  = track (pending_spec structName fieldEdits spec) m b.
Proof.
  assert (Hnil : Some (m, b) = track [] m b).
  { unfold track. simpl. by rewrite orb_false_r. }
  destruct spec as [imp|name [st|]|]; simpl; try done.
  - case_decide; [|done].
    rewrite editFields_track. unfold track.
    destruct (runEdits (pending_struct fieldEdits st) b); simpl; [|done].
    by destruct (nonempty _), m.
  - by case_decide.
Qed.

Lemma editDecl_track structName fieldEdits m b decl :
  editDecl structName fieldEdits (m, b) decl
  = track (pending_decl structName fieldEdits decl) m b.
Proof.
  assert (Hnil : Some (m, b) = track [] m b).
  { unfold track. simpl. by rewrite orb_false_r. }
  destruct decl as [gd| |]; simpl; try done.
  case_decide; [|done].
  apply foldM_track. intros. apply editSpec_track.
Qed.

(** [EditStruct] attempts exactly the pending replacements, in order, and
    reports whether there was any. *)
Lemma EditStruct_run structName fieldEdits e :
  EditStruct structName fieldEdits e
  = (λ b', (nonempty (pendingEdits (file e) structName fieldEdits), None,
            mkEditor (file e) b' (imports e)))
      <$> runEdits (pendingEdits (file e) structName fieldEdits) (src e).
Proof.
  unfold EditStruct.
  rewrite (foldM_track _ (pending_decl structName fieldEdits))
    by (intros; apply editDecl_track).
  unfold track, pendingEdits.
  by destruct (runEdits _ (src e)).
Qed.

Lemma EditStruct_nothing_pending structName fieldEdits e :
  pendingEdits (file e) structName fieldEdits = [] →
  EditStruct structName fieldEdits e = Some (false, None, e).
Proof.
  intros H. rewrite EditStruct_run, H. simpl. by destruct e.
Qed.

(** ** Calls that find nothing to do *)

Lemma flat_map_nil {A B : Type} (f : A → list B) (l : list A) :
  (∀ x, x ∈ l → f x = []) → flat_map f l = [].
Proof.
  induction l as [|x l IH]; intros H; simpl; [done|].
  rewrite H by left. simpl. apply IH. intros y Hy. apply H. by right.
Qed.

Lemma pending_name_nil fieldEdits ty name :
  (∀ t, fieldEdits !! name = Some t → typeString ty = t) →
  pending_name fieldEdits ty name = [].
Proof.
  intros H. unfold pending_name.
  destruct (fieldEdits !! name) as [t|]; [|done].
  by rewrite decide_True by by apply H.
Qed.

Lemma pendingEdits_nil f structName fieldEdits :
  (∀ st field name t,
     struct_of f structName st → field ∈ Fields st → name ∈ Names field →
     fieldEdits !! name = Some t → typeString (Type_ field) = t) →
  pendingEdits f structName fieldEdits = [].
Proof.
  intros H. apply flat_map_nil. intros [gd| |] Hd; simpl; try done.
  case_decide as Htok; [|done].
  apply flat_map_nil. intros [imp|name [st|]|] Hs; simpl; try done.
  case_decide as Hname; [subst name|done].
  apply flat_map_nil. intros field Hf.
  apply flat_map_nil. intros fname Hn.
  apply pending_name_nil. intros t Ht.
  apply (H st field fname t); try done. by exists gd.
Qed.

Lemma type_spec_in_StructNames e name ty :
  type_spec_of (file e) name ty → name ∈ StructNames e.
Proof.
  intros (gd & Hd & Htok & Hs).
  apply list_elem_of_In, in_flat_map. exists (DGen gd).
  split; [by apply list_elem_of_In|]. simpl.
  rewrite decide_True by done.
  apply in_flat_map. exists (SType name ty).
  split; [by apply list_elem_of_In|]. by left.
Qed.

(** C4. A request for the type a field already has, as [typeString]
    renders it from the tree, is skipped: the iteration for that field
    name leaves the flag and the buffer as they were, and a call in which
    every requested type is the rendering of the current one returns
    [false] and leaves the editor unchanged. *)
Theorem canonical_type_is_noop :
  (∀ fieldEdits ty st name,
     fieldEdits !! name = Some (typeString ty) →
     editName fieldEdits ty st name = Some st)
  ∧ (∀ structName fieldEdits e,
       (∀ st field name t,
          struct_of (file e) structName st → field ∈ Fields st →
          name ∈ Names field → fieldEdits !! name = Some t →
          t = typeString (Type_ field)) →
       EditStruct structName fieldEdits e = Some (false, None, e)).
Proof.
  split.
  - intros fieldEdits ty st name H. unfold editName. rewrite H.
    by rewrite decide_True.
  - intros structName fieldEdits e H.
    apply EditStruct_nothing_pending, pendingEdits_nil.
    intros st field name t ????. symmetry. by eapply H.
Qed.

(** Membership in the lists of a concrete tree, by cases. *)
Ltac in_tree :=
  repeat match goal with
    | H : type_spec_of _ _ _ |- _ => destruct H as (? & ? & ? & ?)
    | H : struct_of _ _ _ |- _ => unfold struct_of in H
    | H : _ ∈ _ :: _ |- _ => apply elem_of_cons in H as [H|H]
    | H : _ ∈ [] |- _ => by apply elem_of_nil in H
    | _ => progress simplify_eq/=
    end.

(** The rendering does not read the buffer: a type written with blanks
    inside, [map[ string ]int], renders without them, and the request
    [map[string]int] is a no-op for it; so is the request [*int64] for
    the field [Total] of the README struct. *)
Lemma canonical_type_is_noop_witness :
  (let ty := MapType 38 54 (Ident 43 49 "string") (Ident 51 54 "int") in
   editName {[ "A" := "map[string]int" ]} ty (false, []) "A" = Some (false, []))
  ∧ EditStruct "Example" {[ "Total" := "*int64" ]} ed_readme
    = Some (false, None, ed_readme).
Proof.
  split.
  - apply (proj1 canonical_type_is_noop). reflexivity.
  - apply (proj2 canonical_type_is_noop).
    intros st field name t Hst Hf Hn Ht. in_tree.
    vm_compute in Ht. by simplify_eq.
Defined.



(** ** One replacement *)

Lemma length_bytes (t : string) : length (bytes t) = String.length t.
Proof.
  unfold bytes, list_byte_of_string. rewrite length_map.
  induction t as [|a t IH]; simpl; [done|]. by rewrite IH.
Qed.

Lemma splice_Some b i j t b' :
  splice b i j t = Some b' ↔
  i ≤ length b ∧ j ≤ length b ∧ b' = take i b ++ bytes t ++ drop j b.
Proof.
  unfold splice. case_decide as H.
  - split; [intros [= <-]; by destruct H|by intros (_ & _ & ->)].
  - split; [done|]. intros (? & ? & _). by destruct H.
Qed.

(** A single replacement leaves every byte before the span and every
    byte after it as it was. *)
Lemma splice_frame b i j t b' :
  splice b i j t = Some b' →
  take i b' = take i b ∧ drop (i + String.length t) b' = drop j b.
Proof.
  intros (Hi & Hj & ->)%splice_Some. split.
  - rewrite take_app_le by (rewrite length_take; lia).
    rewrite take_take. f_equal. lia.
  - rewrite drop_app_ge by (rewrite length_take; lia).
    rewrite length_take, drop_app_ge by (rewrite length_bytes; lia).
    rewrite length_bytes. replace (_ - _ - _) with 0 by lia. done.
Qed.

Lemma splice_length b i j t b' :
  splice b i j t = Some b' →
  length b' = i + String.length t + (length b - j).
Proof.
  intros (Hi & Hj & ->)%splice_Some.
  rewrite !length_app, length_take, length_drop, length_bytes. lia.
Qed.

(** ** Several replacements in one call: offsets are not corrected *)

(** C1. Two edits in one declaration whose new texts differ in length
    from the old ones.  For the README struct and the edits
    [ID: string], [Total: uint64], [EditStruct] replaces [int64] by
    [string] and then replaces six bytes at the parse-time offset of
    [*int64] in the buffer that the first edit has already made one
    byte longer: the result reads [Totaluint644].  The specified result,
    which is also what the two replacements give when the rightmost one
    is made first, reads [Total uint64]. *)
Theorem two_edits_drift :
  let edits : gmap string string := {[ "ID" := "string"; "Total" := "uint64" ]} in
  let got := "package test; type Example struct { ID string; Totaluint644 }" in
  let want := "package test; type Example struct { ID string; Total uint64 }" in
  EditStruct "Example" edits ed_readme
  = Some (true, None, mkEditor file_readme (bytes got) (imports ed_readme))
  ∧ spec_applyEdits (pendingEdits file_readme "Example" edits) (bytes src_readme)
    = Some (bytes want)
  ∧ (replaceType (bytes src_readme) ty_Total "uint64"
       ≫= λ b, replaceType b ty_ID "string") = Some (bytes want)
  ∧ (replaceType (bytes src_readme) ty_ID "string"
       ≫= λ b, replaceType b ty_Total "uint64") = Some (bytes got)
  ∧ bytes got ≠ bytes want.
Proof.
  vm_compute. repeat split; done.
Qed.

(** C2. Bytes outside the edited spans.  With the edits [A: int] and
    [B: string] the first replacement makes the buffer eleven bytes
    shorter, and the second one, made at the parse-time offset of the
    type of [B], lands inside the comment that follows it: the comment
    [/* count of b */], which lies outside both spans, is damaged, and
    the type of [B] is not replaced.  The specified result keeps every
    byte outside the two spans. *)
Theorem comment_bytes_overwritten :
  let edits : gmap string string := {[ "A" := "int"; "B" := "string" ]} in
  let got :=
    "package test; type Example struct { A int /* key */; B int /* counstringf b */ }" in
  let want :=
    "package test; type Example struct { A int /* key */; B string /* count of b */ }" in
  EditStruct "Example" edits ed_comments
  = Some (true, None, mkEditor file_comments (bytes got) (imports ed_comments))
  ∧ spec_applyEdits (pendingEdits file_comments "Example" edits) (bytes src_comments)
    = Some (bytes want)
  ∧ bytes got ≠ bytes want.
Proof.
  vm_compute. repeat split; done.
Qed.

(** C10. An embedded field is never chosen for replacement, but its
    bytes are not safe from the replacements of its neighbours.  With the
    edits [A: map[int]int] and [B: int64] the first replacement makes the
    buffer eight bytes longer, and the second one, made at the parse-time
    offset of the type of [B], overwrites the first three bytes of the
    embedded field [Base]. *)
Theorem embedded_field_overwritten :
  let edits : gmap string string := {[ "A" := "map[int]int"; "B" := "int64" ]} in
  let got := "package test; type Example struct { A map[int]int; int64e; B int }" in
  let want := "package test; type Example struct { A map[int]int; Base; B int64 }" in
  EditStruct "Example" edits ed_embedded
  = Some (true, None, mkEditor file_embedded (bytes got) (imports ed_embedded))
  ∧ spec_applyEdits (pendingEdits file_embedded "Example" edits) (bytes src_embedded)
    = Some (bytes want)
  ∧ bytes got ≠ bytes want.
Proof.
  vm_compute. repeat split; done.
Qed.

(** The guard itself: the loop body does nothing for a field without
    names, whatever the edit mapping, and a struct of embedded fields
    only is never modified. *)
Lemma editField_embedded fieldEdits st ty :
  editField fieldEdits st (mkField [] ty) = Some st.
Proof. done. Qed.

Lemma pending_struct_all_embedded fieldEdits st :
  (∀ field, field ∈ Fields st → Names field = []) →
  pending_struct fieldEdits st = [].
Proof.
  intros H. apply flat_map_nil. intros field Hf.
  unfold pending_field. by rewrite (H field Hf).
Qed.

(** ** Calling [EditStruct] again *)

Lemma no_shrink_cons ed l : no_shrink (ed :: l) → no_shrink l.
Proof. intros H x Hx. apply H. by right. Qed.

Lemma runEdits_cons ed l b :
  runEdits (ed :: l) b = replaceType b ed.1 ed.2 ≫= runEdits l.
Proof. done. Qed.

Lemma replaceType_grows b ty t b' :
  replaceType b ty t = Some b' → End ty - Pos ty ≤ String.length t →
  length b ≤ length b'.
Proof.
  intros H Hlen. pose proof (splice_length _ _ _ _ _ H) as ->.
  apply splice_Some in H as (? & ? & _). lia.
Qed.

Lemma runEdits_grows l b b' :
  runEdits l b = Some b' → no_shrink l →
  length b ≤ length b' ∧ in_range l (length b').
Proof.
  revert b. induction l as [|ed l IH]; intros b Hrun Hns.
  - injection Hrun as <-. split; [done|]. intros ? []%elem_of_nil.
  - rewrite runEdits_cons in Hrun.
    destruct (replaceType b ed.1 ed.2) as [b1|] eqn:H1; [|done]. simpl in Hrun.
    destruct (IH b1 Hrun (no_shrink_cons _ _ Hns)) as [Hle Hin].
    pose proof (replaceType_grows _ _ _ _ H1 (Hns ed ltac:(left))) as Hle1.
    split; [lia|].
    intros x [->|Hx]%elem_of_cons; [|by apply Hin].
    apply splice_Some in H1 as (? & ? & _). lia.
Qed.

Lemma runEdits_in_range l b :
  no_shrink l → in_range l (length b) → is_Some (runEdits l b).
Proof.
  revert b. induction l as [|ed l IH]; intros b Hns Hin; [by eexists|].
  rewrite runEdits_cons.
  destruct (Hin ed ltac:(left)) as [Hp He].
  destruct (replaceType b ed.1 ed.2) as [b1|] eqn:H1.
  - simpl. apply IH; [by eapply no_shrink_cons|].
    pose proof (replaceType_grows _ _ _ _ H1 (Hns ed ltac:(left))).
    intros x Hx. destruct (Hin x ltac:(by right)). lia.
  - unfold replaceType, splice in H1. by rewrite decide_True in H1.
Qed.

(** C9, as the code has it.  The test for a no-op reads the tree and the
    edit mapping only, so a second call with the same arguments decides
    as the first one did: after a call that returned [true] there is at
    least one pending replacement, the buffer is the result of making the
    pending replacements in order, and the second call attempts the same
    replacements, at the same parse-time offsets, on the buffer the first
    one left.  It returns [true] again whenever these offsets are still
    inside that buffer, which is the case when no new text is shorter
    than the span it replaces. *)
Theorem second_call_replays_edits structName fieldEdits e e1 :
  EditStruct structName fieldEdits e = Some (true, None, e1) →
  let pend := pendingEdits (file e) structName fieldEdits in
  pend ≠ []
  ∧ runEdits pend (src e) = Some (src e1)
  ∧ EditStruct structName fieldEdits e1
    = (λ b, (true, None, mkEditor (file e) b (imports e)))
        <$> runEdits pend (src e1)
  ∧ (no_shrink pend →
     ∃ e2, EditStruct structName fieldEdits e1 = Some (true, None, e2)).
Proof.
  intros H pend. rewrite EditStruct_run in H. fold pend in H.
  destruct (runEdits pend (src e)) as [b1|] eqn:Hrun; [|done].
  simpl in H. injection H as Hne <-.
  assert (Hagain : EditStruct structName fieldEdits
                     (mkEditor (file e) b1 (imports e))
                   = (λ b, (true, None, mkEditor (file e) b (imports e)))
                       <$> runEdits pend b1).
  { rewrite EditStruct_run. simpl. fold pend. by rewrite Hne. }
  split; [by intros Hnil; rewrite Hnil in Hne|].
  split; [done|]. split; [done|].
  intros Hns. rewrite Hagain. simpl.
  destruct (runEdits_grows _ _ _ Hrun Hns) as [_ Hin].
  destruct (runEdits_in_range pend b1 Hns Hin) as [b2 ->].
  by eexists.
Qed.

Lemma second_call_replays_edits_witness :
  ∃ e2,
    EditStruct "Example" {[ "Total" := "uint64" ]}
      (mkEditor file_readme
         (bytes "package test; type Example struct { ID int64; Total uint64 }")
         (imports ed_readme))
    = Some (true, None, e2).
Proof.
  apply (second_call_replays_edits "Example" {[ "Total" := "uint64" ]} ed_readme).
  - reflexivity.
  - intros ed Hed.
    change (pendingEdits (file ed_readme) "Example" {[ "Total" := "uint64" ]})
      with [(ty_Total, "uint64")] in Hed.
    in_tree. lia.
Defined.

(** C9, as stated, fails when a replacement made the buffer shorter: the
    first call turns [map[string]map[string]int] into [int], the buffer
    is then 37 bytes long, and the second call slices it at the
    parse-time end offset 57 of the type, which panics. *)
Lemma second_call_can_panic :
  let e1 :=
    mkEditor file_nested (bytes "package test; type T struct { A int }")
      (imports ed_nested) in
  EditStruct "T" {[ "A" := "int" ]} ed_nested = Some (true, None, e1)
  ∧ EditStruct "T" {[ "A" := "int" ]} e1 = None
  ∧ ¬ ∃ e2, EditStruct "T" {[ "A" := "int" ]} e1 = Some (true, None, e2).
Proof.
  split; [by vm_compute|]. split; [by vm_compute|].
  intros [e2 H]. by vm_compute in H.
Qed.

(** ** Rendering of import blocks *)

Lemma append_assoc (a b c : string) : (a +:+ b) +:+ c = a +:+ b +:+ c.
Proof.
  induction a as [|x a IH]; [done|].
  change (String x ((a +:+ b) +:+ c) = String x (a +:+ b +:+ c)).
  by rewrite IH.
Qed.

Lemma Join_snoc (xs : list string) (z sep : string) :
  xs ≠ [] → Join (xs ++ [z]) sep = Join xs sep +:+ sep +:+ z.
Proof.
  induction xs as [|x [|y xs] IH]; intros Hne; [done|done|].
  change (Join ((x :: y :: xs) ++ [z]) sep)
    with (x +:+ sep +:+ Join ((y :: xs) ++ [z]) sep).
  rewrite IH by done.
  change (Join (x :: y :: xs) sep) with (x +:+ sep +:+ Join (y :: xs) sep).
  by rewrite !append_assoc.
Qed.

Lemma Join_tabbed (xs : list string) (rest : string) :
  xs ≠ [] →
  Join (map (λ x, tab +:+ x) xs) nl +:+ nl +:+ rest = fold_right line_then rest xs.
Proof.
  induction xs as [|x [|y xs] IH]; intros Hne; [done| |].
  - cbn [Join map fold_right]. unfold line_then. by rewrite !append_assoc.
  - change (Join (map (λ x, tab +:+ x) (x :: y :: xs)) nl)
      with ((tab +:+ x) +:+ nl +:+ Join (map (λ x, tab +:+ x) (y :: xs)) nl).
    rewrite !append_assoc, IH by done. done.
Qed.

Lemma fold_line_then_append (xs : list string) (r t : string) :
  fold_right line_then r xs +:+ t = fold_right line_then (r +:+ t) xs.
Proof.
  induction xs as [|x xs IH]; cbn [fold_right]; [done|].
  unfold line_then at 1 3. by rewrite !append_assoc, IH.
Qed.

Lemma newLine_tabbed toAdd :
  map newLine toAdd = map (λ x, tab +:+ x) (new_entries toAdd).
Proof. unfold new_entries. by rewrite map_map. Qed.

Lemma tabbed_lines (specs : list Spec) toAdd :
  map (λ spec, tab +:+ specString spec) specs ++ map newLine toAdd
  = map (λ x, tab +:+ x) (map specString specs ++ new_entries toAdd).
Proof. by rewrite newLine_tabbed, map_app, map_map. Qed.

Lemma insertNewImportBlock_text toAdd :
  toAdd ≠ [] →
  Join (["import ("] ++ map newLine toAdd ++ [")" +:+ nl +:+ nl]) nl
  = import_block (new_entries toAdd) +:+ nl +:+ nl.
Proof.
  intros Hne.
  assert (Hm : map newLine toAdd ≠ []) by by destruct toAdd.
  change (["import ("] ++ map newLine toAdd ++ [")" +:+ nl +:+ nl])
    with ("import (" :: (map newLine toAdd ++ [")" +:+ nl +:+ nl])).
  destruct (map newLine toAdd ++ [")" +:+ nl +:+ nl]) as [|l ls] eqn:Hl.
  { by destruct (map newLine toAdd). }
  change (Join ("import (" :: l :: ls) nl) with ("import (" +:+ nl +:+ Join (l :: ls) nl).
  rewrite <- Hl, Join_snoc, newLine_tabbed by done.
  rewrite Join_tabbed by (by destruct toAdd).
  unfold import_block, paren_block. rewrite !append_assoc.
  by rewrite fold_line_then_append.
Qed.

Lemma addToBlock_text (specs : list Spec) toAdd :
  toAdd ≠ [] →
  "(" +:+ nl
  +:+ Join (map (λ imp, tab +:+ specString imp) specs ++ map newLine toAdd) nl
  +:+ nl +:+ ")"
  = paren_block (map specString specs ++ new_entries toAdd).
Proof.
  intros Hne. rewrite tabbed_lines, Join_tabbed; [done|].
  destruct toAdd; [done|]. by destruct specs.
Qed.

Lemma convertToBlock_text (specs : list Spec) toAdd :
  toAdd ≠ [] →
  "import (" +:+ nl
  +:+ Join (map (λ spec, tab +:+ specString spec) specs ++ map newLine toAdd) nl
  +:+ nl +:+ ")"
  = import_block (map specString specs ++ new_entries toAdd).
Proof.
  intros Hne. rewrite tabbed_lines, Join_tabbed; [done|].
  destruct toAdd; [done|]. by destruct specs.
Qed.

(** ** The delta of [add] *)

Lemma collect_all_bound order (ex : gmap string string) :
  (∀ a p, (a, p) ∈ order → is_Some (ex !! a)) → collect order ex = ([], ex).
Proof.
  induction order as [|[a p] order IH]; intros H; simpl; [done|].
  destruct (H a p ltac:(left)) as [v ->].
  apply IH. intros ???. eapply H. by right.
Qed.

Lemma collect_binds order (ex : gmap string string) :
  (∀ a, is_Some (ex !! a) → is_Some ((collect order ex).2 !! a))
  ∧ (∀ a p, (a, p) ∈ order → is_Some ((collect order ex).2 !! a)).
Proof.
  revert ex. induction order as [|[a p] order IH]; intros ex; simpl.
  { split; [done|]. intros ?? []%elem_of_nil. }
  destruct (ex !! a) as [v|] eqn:Ha.
  - destruct (IH ex) as [IH1 IH2]. split; [done|].
    intros a' p' [[= -> ->]|Hin]%elem_of_cons; [|by eapply IH2].
    apply IH1. by rewrite Ha.
  - destruct (IH (<[a:=p]> ex)) as [IH1 IH2].
    destruct (collect order (<[a:=p]> ex)) as [toAdd ex'] eqn:Hc. simpl in *.
    assert (Hmono : ∀ a', is_Some (ex !! a') → is_Some (ex' !! a')).
    { intros a' Ha'. apply IH1. destruct (decide (a = a')) as [->|Hne].
      - by rewrite lookup_insert_eq.
      - by rewrite lookup_insert_ne. }
    split; [done|].
    intros a' p' [[= -> ->]|Hin]%elem_of_cons; [|by eapply IH2].
    apply IH1. by rewrite lookup_insert_eq.
Qed.

(** The new entries are requested, were not bound before, and no alias
    is entered twice, whatever the sequence of requests. *)
Lemma collect_toAdd order (ex : gmap string string) :
  NoDup (map alias (collect order ex).1)
  ∧ ∀ s, s ∈ (collect order ex).1 →
         ex !! alias s = None ∧ (alias s, path s) ∈ order.
Proof.
  revert ex. induction order as [|[a p] order IH]; intros ex; simpl.
  { split; [constructor|]. intros ? []%elem_of_nil. }
  destruct (ex !! a) as [v|] eqn:Ha.
  - destruct (IH ex) as [IH1 IH2]. split; [done|].
    intros s Hs. destruct (IH2 s Hs). split; [done|]. by right.
  - destruct (IH (<[a:=p]> ex)) as [IH1 IH2].
    destruct (collect order (<[a:=p]> ex)) as [toAdd ex'] eqn:Hc. simpl in *.
    split.
    + constructor; [|done].
      intros (s & Hs1 & Hs2)%list_elem_of_fmap.
      destruct (IH2 s Hs2) as [Hnone _].
      rewrite <- Hs1, lookup_insert_eq in Hnone. done.
    + intros s [->|Hs]%elem_of_cons; simpl.
      * split; [done|left].
      * destruct (IH2 s Hs) as [Hnone Hin]. split; [|by right].
        destruct (decide (a = alias s)) as [Heq|Hne].
        -- rewrite Heq, lookup_insert_eq in Hnone. done.
        -- by rewrite lookup_insert_ne in Hnone.
Qed.

Lemma collect_new a p (ex : gmap string string) :
  ex !! a = None → collect [(a, p)] ex = ([mkSpec a p], <[a:=p]> ex).
Proof. intros H. simpl. by rewrite H. Qed.

Lemma newImportManager_binds f imp :
  imp ∈ Imports f → is_Some (existing (newImportManager f) !! importName imp).
Proof.
  unfold newImportManager. simpl. generalize (∅ : gmap string string).
  induction (Imports f) as [|x l IH]; intros ex Hin; [by apply elem_of_nil in Hin|].
  simpl. apply elem_of_cons in Hin as [->|Hin]; [|by apply IH].
  assert (Hkeep : ∀ l' (ex' : gmap string string) k, is_Some (ex' !! k) →
            is_Some (fold_left
              (λ ex imp, <[importName imp := Trim "034" (PathValue imp)]> ex)
              l' ex' !! k)).
  { clear. induction l' as [|y l' IH']; intros ex' k Hk; [done|].
    simpl. apply IH'. destruct (decide (importName y = k)) as [->|Hne].
    - by rewrite lookup_insert_eq.
    - by rewrite lookup_insert_ne. }
  apply Hkeep. by rewrite lookup_insert_eq.
Qed.

Lemma singleton_order a p (order : list (string * string)) :
  order ≡ₚ map_to_list ({[ a := p ]} : gmap string string) → order = [(a, p)].
Proof.
  rewrite map_to_list_singleton. intros H. by apply Permutation_singleton_r.
Qed.

Lemma editor_eta e : mkEditor (file e) (src e) (imports e) = e.
Proof. by destruct e. Qed.

Lemma importManager_eta im : mkIM (im_file im) (existing im) = im.
Proof. by destruct im. Qed.

(** A call whose requests are all bound changes nothing. *)
Lemma AddImports_in_all_bound order e :
  (∀ a p, (a, p) ∈ order → is_Some (existing (imports e) !! a)) →
  AddImports_in order e = Some (None, e).
Proof.
  intros H. unfold AddImports_in, add. rewrite (collect_all_bound _ _ H).
  simpl. by rewrite importManager_eta, editor_eta.
Qed.

Lemma AddImports_in_existing order e err e1 :
  AddImports_in order e = Some (err, e1) →
  existing (imports e1) = (collect order (existing (imports e))).2.
Proof.
  unfold AddImports_in, add.
  destruct (collect order (existing (imports e))) as [toAdd ex'].
  set (im' := mkIM (im_file (imports e)) ex').
  intros H.
  assert (Hfin : ∀ r : option (error * list byte),
            ('(err0, im0, b0) ← ('(err, b') ← r; Some (err, im', b'));
               Some (err0, mkEditor (file e) b0 im0)) = Some (err, e1) →
            existing (imports e1) = ex').
  { intros [[err0 b0]|]; simpl; [|done]. by intros [= _ <-]. }
  destruct toAdd as [|s toAdd]; [simpl in H; by injection H as _ <-|].
  destruct (Imports (im_file im')); [by eapply Hfin|].
  destruct (findImportDecl im') as [gd|]; [|by eapply Hfin].
  case_decide; by eapply Hfin.
Qed.

(** Requests are idempotent per name of the table.  Whatever the
    sequence of requests met in one call, no alias is entered twice and
    none that the table holds is entered, so that a new alias requested
    twice gives one entry; after a call that returned, a second call
    with the same requests returns [nil] and changes nothing; and a
    request for a name that [newImportManager] computes for an import
    statement of the file, with whatever path is requested, returns
    [nil] and changes nothing. *)
Theorem AddImports_idempotent :
  (∀ order (ex : gmap string string),
     NoDup (map alias (collect order ex).1)
     ∧ ∀ s, s ∈ (collect order ex).1 → ex !! alias s = None)
  ∧ (∀ a p (ex : gmap string string),
       ex !! a = None → (collect [(a, p); (a, p)] ex).1 = [mkSpec a p])
  ∧ (∀ required e err e1 out,
       AddImports required e (Some (err, e1)) →
       AddImports required e1 out → out = Some (None, e1))
  ∧ (∀ f b imp p out,
       imp ∈ Imports f →
       AddImports {[ importName imp := p ]} (newEditor f b) out →
       out = Some (None, newEditor f b)).
Proof.
  split; [|split; [|split]].
  - intros order ex. destruct (collect_toAdd order ex) as [H1 H2].
    split; [done|]. intros s Hs. by destruct (H2 s Hs).
  - intros a p ex Ha. simpl. by rewrite Ha, lookup_insert_eq.
  - intros required e err e1 out (order1 & Hp1 & H1) (order2 & Hp2 & ->).
    symmetry in H1. apply AddImports_in_existing in H1.
    apply AddImports_in_all_bound. intros a p Hin. rewrite H1.
    eapply (proj2 (collect_binds order1 _)).
    rewrite Hp1, <- Hp2. done.
  - intros f b imp p out Himp (order & ->%singleton_order & ->).
    apply AddImports_in_all_bound.
    intros a p' [[= -> ->]|[]%elem_of_nil]%elem_of_cons.
    by apply newImportManager_binds.
Qed.

Lemma AddImports_idempotent_witness :
  (collect [("time", "time"); ("time", "time")] ∅).1 = [mkSpec "time" "time"]
  ∧ (∃ e1, AddImports_in [("time", "time")] ed_readme = Some (None, e1)
           ∧ AddImports_in [("time", "time")] e1 = Some (None, e1))
  ∧ AddImports_in [("t", "text/template")] ed_block = Some (None, ed_block)
  ∧ AddImports_in [("fmt", "example.org/fmt")] ed_single = Some (None, ed_single).
Proof.
  assert (Hone : ∀ a p e, AddImports {[ a := p ]} e (AddImports_in [(a, p)] e)).
  { intros a p e. exists [(a, p)]. by rewrite map_to_list_singleton. }
  split; [|split; [|split]].
  - apply (proj1 (proj2 AddImports_idempotent)). reflexivity.
  - eexists. split; [reflexivity|].
    apply (proj1 (proj2 (proj2 AddImports_idempotent)) {[ "time" := "time" ]}
             ed_readme None).
    + exists [("time", "time")]. by rewrite map_to_list_singleton.
    + apply Hone.
  - apply (proj2 (proj2 (proj2 AddImports_idempotent)) file_block (bytes src_block)
             (mkImport (Some "t") (quoted "time")) "text/template").
    + right. left.
    + apply (Hone "t").
  - apply (proj2 (proj2 (proj2 AddImports_idempotent)) file_single (bytes src_single)
             (mkImport None (quoted "fmt")) "example.org/fmt").
    + left.
    + apply (Hone "fmt").
Defined.

Example importName_examples :
  importName (mkImport None (quoted "github.com/google/uuid")) = "uuid"
  ∧ importName (mkImport (Some "mytime") (quoted "time")) = "mytime"
  ∧ importName (mkImport None (quoted "fmt")) = "fmt".
Proof. vm_compute. done. Qed.

(** ** Errors of [AddImports] *)

Lemma add_error order im b msg im1 b1 :
  add order im b = Some (Some msg, im1, b1) →
  (collect order (existing im)).1 ≠ []
  ∧ Imports (im_file im) ≠ []
  ∧ findImportDecl im = None.
Proof.
  unfold add.
  destruct (collect order (existing im)) as [toAdd ex'].
  set (im' := mkIM (im_file im) ex').
  destruct toAdd as [|s toAdd]; [done|].
  change (Imports (im_file im')) with (Imports (im_file im)).
  change (findImportDecl im') with (findImportDecl im).
  destruct (Imports (im_file im)) as [|i is_].
  { unfold insertNewImportBlock. by destruct (splice _ _ _ _). }
  unfold convertToBlock, findImportDecl.
  change (im_file im') with (im_file im).
  destruct (findImportDecl_from (Decls (im_file im))) as [gd|]; [|done].
  case_decide.
  - unfold addToBlock. by destruct (splice _ _ _ _).
  - by destruct (splice _ _ _ _).
Qed.

(** C7. [AddImports] returns an error only for a tree that lists import
    statements and has no import declaration, and then only when some
    requested alias is new; when every requested alias is bound already
    it returns [nil] and changes nothing. *)
Theorem AddImports_error_only_without_decl required e :
  (∀ msg e1,
     AddImports required e (Some (Some msg, e1)) →
     Imports (im_file (imports e)) ≠ []
     ∧ findImportDecl (imports e) = None
     ∧ ∃ a, is_Some (required !! a) ∧ existing (imports e) !! a = None)
  ∧ ((∀ a, is_Some (required !! a) → is_Some (existing (imports e) !! a)) →
     ∀ out, AddImports required e out → out = Some (None, e)).
Proof.
  split.
  - intros msg e1 (order & Hperm & H). symmetry in H.
    unfold AddImports_in in H.
    destruct (add order (imports e) (src e)) as [[[err im1] b1]|] eqn:Hadd;
      [|done].
    simpl in H. injection H as -> _.
    apply add_error in Hadd as (Hne & Himp & Hdecl).
    split; [done|]. split; [done|].
    destruct (collect_toAdd order (existing (imports e))) as [_ Hin].
    destruct (collect order (existing (imports e))).1 as [|s toAdd]; [done|].
    destruct (Hin s ltac:(left)) as [Hnone Hreq].
    exists (alias s). split; [|done].
    rewrite Hperm in Hreq. apply elem_of_map_to_list in Hreq. by eexists.
  - intros Hall out (order & Hperm & ->).
    apply AddImports_in_all_bound. intros a p Hin.
    apply Hall. rewrite Hperm in Hin.
    apply elem_of_map_to_list in Hin. by eexists.
Qed.

Lemma AddImports_error_only_without_decl_witness :
  (Imports (im_file (imports ed_orphan)) ≠ []
   ∧ findImportDecl (imports ed_orphan) = None
   ∧ ∃ a, is_Some (({[ "time" := "time" ]} : gmap string string) !! a)
          ∧ existing (imports ed_orphan) !! a = None)
  ∧ AddImports_in [("fmt", "fmt")] ed_single = Some (None, ed_single).
Proof.
  split.
  - apply (proj1 (AddImports_error_only_without_decl {[ "time" := "time" ]}
                    ed_orphan)
             "no import declaration found"
             (mkEditor file_orphan (bytes "package test")
                (mkIM file_orphan
                   (<["time" := "time"]> (existing (imports ed_orphan)))))).
    exists [("time", "time")]. by rewrite map_to_list_singleton.
  - apply (proj2 (AddImports_error_only_without_decl {[ "fmt" := "fmt" ]}
                    ed_single)).
    + intros a [v Hv].
      destruct (decide (a = "fmt")) as [->|Hne]; [by eexists|].
      by rewrite lookup_singleton_ne in Hv.
    + exists [("fmt", "fmt")]. by rewrite map_to_list_singleton.
Defined.

(** ** The three import layouts *)

Lemma splice_in_range b i j t :
  i ≤ length b → j ≤ length b →
  splice b i j t = Some (take i b ++ bytes t ++ drop j b).
Proof. intros. unfold splice. by rewrite decide_True. Qed.

(** C3. Adding one new import [a -> p] to each of the three layouts.
    - No import statement: the text [import (], one line with the quoted
      path, [)] and two line ends is inserted at the first declaration
      that is not an import (at the end of the file when there is none),
      and nothing is removed.
    - A single statement without parentheses: it is replaced by a block
      with the original entry and then the new one.
    - A block: the text from [(] to [)] is replaced by a block with the
      original entries in their order and then the new one, so a block
      stays a block. *)
Theorem import_layout_transitions a p e out :
  existing (imports e) !! a = None →
  AddImports {[ a := p ]} e out →
  let im := imports e in
  let b := src e in
  let done_ b' :=
    Some (None, mkEditor (file e) b'
                  (mkIM (im_file im) (<[a := p]> (existing im)))) in
  (Imports (im_file im) = [] →
   findInsertPosition im ≤ length b →
   out = done_ (take (findInsertPosition im) b
                ++ bytes (import_block [quoted p] +:+ nl +:+ nl)
                ++ drop (findInsertPosition im) b))
  ∧ (∀ gd orig,
       Imports (im_file im) ≠ [] → findImportDecl im = Some gd →
       Lparen gd = None → Specs gd = [orig] →
       gPos gd ≤ length b → gEnd gd ≤ length b →
       out = done_ (take (gPos gd) b
                    ++ bytes (import_block [specString orig; quoted p])
                    ++ drop (gEnd gd) b))
  ∧ (∀ gd lp rp,
       Imports (im_file im) ≠ [] → findImportDecl im = Some gd →
       Lparen gd = Some lp → Rparen gd = Some rp →
       lp ≤ length b → rp < length b →
       out = done_ (take lp b
                    ++ bytes (paren_block (map specString (Specs gd) ++ [quoted p]))
                    ++ drop (rp + 1) b)).
Proof.
  intros Hnew (order & ->%singleton_order & ->) im b done_.
  unfold AddImports_in, add. rewrite (collect_new _ _ _ Hnew).
  set (im' := mkIM (im_file (imports e)) (<[a:=p]> (existing (imports e)))).
  change (Imports (im_file im')) with (Imports (im_file im)).
  change (findImportDecl im') with (findImportDecl im).
  assert (Hne : [mkSpec a p] ≠ []) by done.
  split; [|split].
  - intros -> Hstart.
    unfold insertNewImportBlock.
    change (findInsertPosition im') with (findInsertPosition im).
    rewrite (insertNewImportBlock_text _ Hne).
    by rewrite splice_in_range.
  - intros gd orig Himp Hdecl Hl Hspecs Hpos Hend.
    destruct (Imports (im_file im)); [done|].
    rewrite Hdecl, Hl.
    rewrite decide_False by (by intros [? ?]).
    unfold convertToBlock.
    change (findImportDecl_from (Decls (im_file im')))
      with (findImportDecl im). rewrite Hdecl.
    rewrite (convertToBlock_text _ _ Hne), Hspecs.
    by rewrite splice_in_range.
  - intros gd lp rp Himp Hdecl Hl Hr Hlp Hrp.
    destruct (Imports (im_file im)); [done|].
    rewrite Hdecl, Hl.
    rewrite decide_True by by eexists.
    unfold addToBlock.
    rewrite (addToBlock_text _ _ Hne), Hl, Hr.
    unfold b in *. by rewrite splice_in_range by (simpl; lia).
Qed.

Lemma import_layout_transitions_witness :
  AddImports_in [("time", "time")] ed_readme
  = Some (None,
          mkEditor file_readme
            (bytes ("package test; import (" +:+ nl
                    +:+ tab +:+ quoted "time" +:+ nl
                    +:+ ")" +:+ nl +:+ nl
                    +:+ "type Example struct { ID int64; Total *int64 }"))
            (mkIM file_readme (<["time" := "time"]> (existing (imports ed_readme)))))
  ∧ AddImports_in [("time", "time")] ed_single
    = Some (None,
            mkEditor file_single
              (bytes ("package test; import (" +:+ nl
                      +:+ tab +:+ quoted "fmt" +:+ nl
                      +:+ tab +:+ quoted "time" +:+ nl
                      +:+ "); type Example struct { ID int64 }"))
              (mkIM file_single (<["time" := "time"]> (existing (imports ed_single)))))
  ∧ AddImports_in [("uuid", "github.com/google/uuid")] ed_block
    = Some (None,
            mkEditor file_block
              (bytes ("package test; import (" +:+ nl
                      +:+ tab +:+ quoted "fmt" +:+ nl
                      +:+ tab +:+ "t " +:+ quoted "time" +:+ nl
                      +:+ tab +:+ quoted "github.com/google/uuid" +:+ nl
                      +:+ "); type Example struct { ID int64 }"))
              (mkIM file_block
                 (<["uuid" := "github.com/google/uuid"]>
                    (existing (imports ed_block))))).
Proof.
  assert (Hone : ∀ a p e, AddImports {[ a := p ]} e (AddImports_in [(a, p)] e)).
  { intros a p e. exists [(a, p)]. by rewrite map_to_list_singleton. }
  split; [|split].
  - destruct (import_layout_transitions "time" "time" ed_readme _
                eq_refl (Hone _ _ _)) as (H & _ & _).
    rewrite H; [reflexivity|reflexivity|vm_compute; lia].
  - destruct (import_layout_transitions "time" "time" ed_single _
                eq_refl (Hone _ _ _)) as (_ & H & _).
    rewrite (H decl_single (SImport (mkImport None (quoted "fmt"))));
      [reflexivity|done|reflexivity|reflexivity|reflexivity
      |vm_compute; lia|vm_compute; lia].
  - destruct (import_layout_transitions "uuid" "github.com/google/uuid" ed_block _
                eq_refl (Hone _ _ _)) as (_ & _ & H).
    rewrite (H decl_block 21 39);
      [reflexivity|done|reflexivity|reflexivity|reflexivity
      |vm_compute; lia|vm_compute; lia].
Defined.

(** ** Import inference from a type string *)

Lemma append_cons a (l r : string) : String a l +:+ r = String a (l +:+ r).
Proof. done. Qed.

Lemma cut_found c (l r : string) :
  (∀ l1 r1, l ≠ l1 +:+ String c r1) → cut c (l +:+ String c r) = Some (l, r).
Proof.
  induction l as [|a l IH]; intros Hno.
  - change ("" +:+ String c r) with (String c r). simpl.
    by rewrite decide_True.
  - rewrite append_cons. simpl.
    rewrite decide_False.
    + rewrite IH; [done|]. intros l1 r1 ->.
      by apply (Hno (String a l1) r1).
    + intros ->. by apply (Hno "" l).
Qed.

Lemma cut_missing c (s : string) :
  (∀ l r, s ≠ l +:+ String c r) → cut c s = None.
Proof.
  induction s as [|a s IH]; intros Hno; simpl; [done|].
  rewrite decide_False.
  - rewrite IH; [done|]. intros l r ->. by apply (Hno (String a l) r).
  - intros ->. by apply (Hno "" s).
Qed.

Lemma parseQualifiedType_cases t :
  config.parseQualifiedType t = ("", "", false)
  ∨ ∃ q, config.parseQualifiedType t = (q, q, true).
Proof.
  unfold config.parseQualifiedType, SplitN2_dot.
  destruct (cut "." (TrimPrefix_star t)) as [[l r]|]; [right; by eexists|by left].
Qed.

Lemma Imports_in_lookup order a pkg :
  config.Imports_in order !! a = Some pkg ↔
  pkg = a ∧ ∃ kv, kv ∈ order ∧ config.parseQualifiedType kv.2 = (a, a, true).
Proof.
  unfold config.Imports_in.
  cut (∀ m : gmap string string,
         (∀ k v, m !! k = Some v → v = k) →
         fold_left
           (λ imports kv,
              match config.parseQualifiedType kv.2 with
              | (pkg, a, true) => <[a := pkg]> imports
              | _ => imports
              end) order m !! a = Some pkg ↔
         pkg = a ∧ (m !! a = Some a
                    ∨ ∃ kv, kv ∈ order
                            ∧ config.parseQualifiedType kv.2 = (a, a, true))).
  { intros H. rewrite (H ∅) by (intros ??; by rewrite lookup_empty).
    rewrite lookup_empty. split.
    - intros [-> [H'|H']]; [done|by split].
    - intros [-> H']. split; [done|by right]. }
  induction order as [|kv order IH]; intros m Hm; simpl.
  { split.
    - intros H. pose proof (Hm _ _ H) as ->. auto.
    - intros [-> [H|(kv & []%elem_of_nil & _)]]. done. }
  destruct (parseQualifiedType_cases kv.2) as [Hq|[q Hq]]; rewrite Hq.
  - rewrite (IH m Hm). split.
    + intros [-> [H|(kv' & Hin & Hkv)]]; split; auto.
      right. exists kv'. split; [by right|done].
    + intros [-> [H|(kv' & [->|Hin]%elem_of_cons & Hkv)]]; split; auto.
      * by rewrite Hq in Hkv.
      * right. by exists kv'.
  - rewrite IH.
    2:{ intros k v. destruct (decide (q = k)) as [->|Hne].
        - rewrite lookup_insert_eq. by intros [= <-].
        - rewrite lookup_insert_ne by done. apply Hm. }
    split.
    + intros [-> [H|(kv' & Hin & Hkv)]]; split; auto.
      * destruct (decide (q = a)) as [->|Hne].
        -- right. exists kv. split; [left|done].
        -- rewrite lookup_insert_ne in H by done. by left.
      * right. exists kv'. split; [by right|done].
    + intros [-> [H|(kv' & [->|Hin]%elem_of_cons & Hkv)]]; split; auto.
      * left. destruct (decide (q = a)) as [->|Hne].
        -- by rewrite lookup_insert_eq.
        -- by rewrite lookup_insert_ne.
      * left. rewrite Hq in Hkv. injection Hkv as ->.
        by rewrite lookup_insert_eq.
      * right. by exists kv'.
Qed.

(** Import inference of the configuration for a type string: one
    leading [*] is stripped; if what remains has a dot, the text before
    the first dot is the qualifier and is returned both as the alias and
    as the path; without a dot nothing is returned.  Accordingly the
    imports of a configuration map exactly the qualifiers of its field
    types to themselves, and are empty when no field type has a dot. *)
Theorem qualified_type_inference :
  (∀ t, TrimPrefix_star ("*" +:+ t) = t)
  ∧ (∀ s, (∀ t, s ≠ "*" +:+ t) → TrimPrefix_star s = s)
  ∧ (∀ s q r,
       TrimPrefix_star s = q +:+ "." +:+ r → no_dot q →
       config.parseQualifiedType s = (q, q, true))
  ∧ (∀ s, no_dot (TrimPrefix_star s) →
          config.parseQualifiedType s = ("", "", false))
  ∧ (∀ tc out a pkg,
       config.Imports tc out →
       (out !! a = Some pkg ↔
        pkg = a ∧ ∃ field t,
                    config.Fields_of tc !! field = Some t
                    ∧ config.parseQualifiedType t = (a, a, true)))
  ∧ (∀ tc out,
       config.Imports tc out →
       (∀ field t, config.Fields_of tc !! field = Some t →
                   no_dot (TrimPrefix_star t)) →
       out = ∅).
Proof.
  assert (Hqual : ∀ s q r,
            TrimPrefix_star s = q +:+ "." +:+ r → no_dot q →
            config.parseQualifiedType s = (q, q, true)).
  { intros s q r Hs Hq. unfold config.parseQualifiedType, SplitN2_dot.
    rewrite Hs. change ("." +:+ r) with (String "." r).
    rewrite cut_found; [done|]. intros l1 r1. apply Hq. }
  assert (Hunq : ∀ s, no_dot (TrimPrefix_star s) →
                      config.parseQualifiedType s = ("", "", false)).
  { intros s Hs. unfold config.parseQualifiedType, SplitN2_dot.
    rewrite cut_missing; [done|]. intros l r. apply Hs. }
  assert (Himp : ∀ tc out a pkg,
            config.Imports tc out →
            (out !! a = Some pkg ↔
             pkg = a ∧ ∃ field t,
                         config.Fields_of tc !! field = Some t
                         ∧ config.parseQualifiedType t = (a, a, true))).
  { intros tc out a pkg (order & Hperm & ->). rewrite Imports_in_lookup.
    split.
    - intros [-> ([field t] & Hin & Hkv)]. split; [done|].
      exists field, t. split; [|done].
      rewrite Hperm in Hin. by apply elem_of_map_to_list in Hin.
    - intros [-> (field & t & Hf & Hkv)]. split; [done|].
      exists (field, t). split; [|done].
      rewrite Hperm. by apply elem_of_map_to_list. }
  split; [done|]. split.
  { intros s Hs. destruct s as [|c s]; [done|].
    unfold TrimPrefix_star.
    destruct (decide (c = "*"%char)) as [->|Hne]; [by destruct (Hs s)|].
    destruct c as [[] [] [] [] [] [] [] []]; try done. }
  split; [done|]. split; [done|]. split; [done|].
  intros tc out Hout Hall. apply map_eq. intros a. rewrite lookup_empty.
  destruct (out !! a) as [pkg|] eqn:Ha; [|done].
  apply (Himp tc out a pkg Hout) in Ha as [-> (field & t & Hf & Hkv)].
  by rewrite (Hunq t (Hall field t Hf)) in Hkv.
Qed.

(** A literal without a dot. *)
Ltac literal_no_dot :=
  let l := fresh "l" in
  let r := fresh "r" in
  let H := fresh "H" in
  intros l r H; cbv [String.append] in H;
  repeat (destruct l as [|? l]; [discriminate H|injection H as _ H]);
  by destruct l.

Lemma qualified_type_inference_witness :
  TrimPrefix_star "int64" = "int64"
  ∧ config.parseQualifiedType "*time.Time" = ("time", "time", true)
  ∧ config.parseQualifiedType "int64" = ("", "", false)
  ∧ config.Imports_in
      (map_to_list ({[ "Total" := "uint64" ]} : gmap string string)) = ∅.
Proof.
  split; [|split; [|split]].
  - apply (proj1 (proj2 qualified_type_inference)).
    intros t H. cbv [String.append] in H. discriminate H.
  - apply (proj1 (proj2 (proj2 qualified_type_inference)) "*time.Time" "time" "Time").
    + reflexivity.
    + literal_no_dot.
  - apply (proj1 (proj2 (proj2 (proj2 qualified_type_inference)))).
    change (TrimPrefix_star "int64") with "int64". literal_no_dot.
  - apply (proj2 (proj2 (proj2 (proj2 (proj2 qualified_type_inference))))
             (config.mkTypeConfig "Example" {[ "Total" := "uint64" ]})).
    + by eexists.
    + simpl. intros field t [_ <-]%lookup_singleton_Some.
      change (TrimPrefix_star "uint64") with "uint64". literal_no_dot.
Defined.

Example parseQualifiedType_examples :
  config.parseQualifiedType "uuid.UUID" = ("uuid", "uuid", true)
  ∧ config.parseQualifiedType "**a.B" = ("*a", "*a", true)
  ∧ config.parseQualifiedType "a.b.C" = ("a", "a", true)
  ∧ config.parseQualifiedType "[]time.Time" = ("[]time", "[]time", true)
  ∧ config.parseQualifiedType "string" = ("", "", false).
Proof. vm_compute. done. Qed.

(** The editor's own inference trims white space first; on the trimmed
    text it finds the same qualifier. *)
Lemma ParseTypeString_pkgPath (TrimSpace : string → string) s :
  (ParseTypeString TrimSpace s).1.1
  = (config.parseQualifiedType (TrimSpace s)).1.1.
Proof.
  unfold ParseTypeString, config.parseQualifiedType.
  assert (Hstrip : ∀ t, (if HasPrefix_star t then TrimPrefix_star t else t)
                        = TrimPrefix_star t).
  { intros [|c t]; [done|]. simpl.
    destruct c as [[] [] [] [] [] [] [] []]; done. }
  rewrite Hstrip. unfold SplitN2_dot.
  by destruct (cut "." (TrimPrefix_star (TrimSpace s))) as [[l r]|].
Qed.

(** * Further properties of the editor *)

(** ** One replacement, in full *)

(** X1. A replacement that returns leaves the bytes before the span and
    the bytes after it as they were, puts the new text in between, and
    changes the length by the difference between the new text and the
    span. *)
Theorem replaceType_result b ty t b' :
  replaceType b ty t = Some b' →
  take (Pos ty) b' = take (Pos ty) b
  ∧ take (String.length t) (drop (Pos ty) b') = bytes t
  ∧ drop (Pos ty + String.length t) b' = drop (End ty) b
  ∧ length b' = Pos ty + String.length t + (length b - End ty).
Proof.
  intros H. destruct (splice_frame _ _ _ _ _ H) as [Hpre Hpost].
  pose proof (splice_length _ _ _ _ _ H) as Hlen.
  split; [done|]. split; [|done].
  apply splice_Some in H as (Hi & Hj & ->).
  rewrite drop_app_ge by (rewrite length_take; lia).
  rewrite length_take, Nat.min_l, Nat.sub_diag, drop_0 by lia.
  rewrite take_app_le by (rewrite length_bytes; lia).
  apply take_ge. rewrite length_bytes. lia.
Qed.

Lemma replaceType_result_witness :
  take 52 (bytes "package test; type Example struct { ID int64; Total uint64 }")
  = take 52 (bytes src_readme)
  ∧ take 6 (drop 52 (bytes "package test; type Example struct { ID int64; Total uint64 }"))
    = bytes "uint64".
Proof.
  destruct (replaceType_result (bytes src_readme) ty_Total "uint64"
              (bytes "package test; type Example struct { ID int64; Total uint64 }")
              eq_refl) as (H1 & H2 & _).
  split; [exact H1|exact H2].
Defined.

(** ** What a call of [EditStruct] does *)

Lemma pendingEdits_elem f structName fieldEdits ty t :
  (ty, t) ∈ pendingEdits f structName fieldEdits
  ↔ requested f structName fieldEdits ty t.
Proof.
  unfold pendingEdits, requested. rewrite list_elem_of_In, in_flat_map. split.
  - intros ([gd| |] & Hd & Hin); simpl in Hin; try done.
    case_decide as Htok; [|done].
    apply in_flat_map in Hin as ([imp|name [st|]|] & Hs & Hin);
      simpl in Hin; try done.
    case_decide as Hname; [subst name|done].
    apply in_flat_map in Hin as (field & Hf & Hin).
    apply in_flat_map in Hin as (fname & Hn & Hin).
    unfold pending_name in Hin.
    destruct (fieldEdits !! fname) as [t'|] eqn:Ht; [|done].
    case_decide as Hneq; [done|].
    destruct Hin as [[= <- <-]|[]].
    exists st, field, fname. repeat split; try (by apply list_elem_of_In); try done.
    exists gd. repeat split; try done; by apply list_elem_of_In.
  - intros (st & field & name & (gd & Hd & Htok & Hs) & Hf & Hn & Ht & Hneq & ->).
    exists (DGen gd). split; [by apply list_elem_of_In|]. simpl.
    rewrite decide_True by done.
    apply in_flat_map. exists (SType structName (Some st)).
    split; [by apply list_elem_of_In|]. simpl.
    rewrite decide_True by done.
    apply in_flat_map. exists field. split; [by apply list_elem_of_In|].
    apply in_flat_map. exists name. split; [by apply list_elem_of_In|].
    unfold pending_name. rewrite Ht, decide_False by done. by left.
Qed.

Lemma nonempty_true {A : Type} (l : list A) :
  nonempty l = true ↔ ∃ x, x ∈ l.
Proof.
  destruct l as [|x l]; simpl.
  - split; [done|]. intros [? []%elem_of_nil].
  - split; [|done]. intros _. exists x. left.
Qed.

(** X2. When [EditStruct] returns, the error is [nil], the tree and the
    import manager are the ones it was given, and it reports a
    modification exactly when some named field of a struct of that name
    is requested a type other than the rendering of its current one. *)
Theorem EditStruct_modified_iff structName fieldEdits e m err e1 :
  EditStruct structName fieldEdits e = Some (m, err, e1) →
  err = None ∧ file e1 = file e ∧ imports e1 = imports e
  ∧ (m = true ↔ ∃ ty t, requested (file e) structName fieldEdits ty t).
Proof.
  rewrite EditStruct_run.
  destruct (runEdits _ (src e)) as [b1|]; [|done].
  simpl. intros [= <- <- <-]. repeat split; try done.
  - intros ([ty t] & Hin)%nonempty_true. exists ty, t.
    by apply pendingEdits_elem.
  - intros (ty & t & H). apply nonempty_true. exists (ty, t).
    by apply pendingEdits_elem.
Qed.

Lemma EditStruct_modified_iff_witness :
  (true = true ↔
   ∃ ty t, requested file_readme "Example" {[ "Total" := "uint64" ]} ty t).
Proof.
  apply (EditStruct_modified_iff "Example" {[ "Total" := "uint64" ]} ed_readme
           true None
           (mkEditor file_readme
              (bytes "package test; type Example struct { ID int64; Total uint64 }")
              (imports ed_readme))).
  reflexivity.
Defined.

Lemma runEdits_prefix l b b' p :
  runEdits l b = Some b' → (∀ ed, ed ∈ l → p ≤ Pos ed.1) →
  take p b' = take p b.
Proof.
  revert b. induction l as [|ed l IH]; intros b Hrun Hp.
  - by injection Hrun as <-.
  - rewrite runEdits_cons in Hrun.
    destruct (replaceType b ed.1 ed.2) as [b1|] eqn:H1; [|done]. simpl in Hrun.
    rewrite (IH b1 Hrun) by (intros x Hx; apply Hp; by right).
    pose proof (Hp ed ltac:(left)) as Hle.
    apply splice_Some in H1 as (Hi & _ & ->).
    rewrite take_app_le by (rewrite length_take; lia).
    rewrite take_take. f_equal. lia.
Qed.

(** X3. Whatever the lengths of the new texts, a call never changes a
    byte before the leftmost type it replaces: if every replaced type
    starts at offset [p] or later, the first [p] bytes of the buffer are
    the same after the call. *)
Theorem EditStruct_keeps_prefix structName fieldEdits e m err e1 p :
  EditStruct structName fieldEdits e = Some (m, err, e1) →
  (∀ ty t, requested (file e) structName fieldEdits ty t → p ≤ Pos ty) →
  take p (src e1) = take p (src e).
Proof.
  rewrite EditStruct_run.
  destruct (runEdits _ (src e)) as [b1|] eqn:Hrun; [|done].
  simpl. intros [= <- <- <-] Hp. simpl.
  apply (runEdits_prefix _ _ _ _ Hrun).
  intros [ty t] Hin. apply (Hp ty t). by apply pendingEdits_elem.
Qed.

Lemma EditStruct_keeps_prefix_witness :
  take 39 (bytes "package test; type Example struct { ID string; Totaluint644 }")
  = take 39 (bytes src_readme).
Proof.
  apply (EditStruct_keeps_prefix "Example"
           {[ "ID" := "string"; "Total" := "uint64" ]} ed_readme true None
           (mkEditor file_readme
              (bytes "package test; type Example struct { ID string; Totaluint644 }")
              (imports ed_readme))).
  - reflexivity.
  - intros ty t H. apply pendingEdits_elem in H.
    change (pendingEdits (file ed_readme) "Example"
              {[ "ID" := "string"; "Total" := "uint64" ]})
      with [(ty_ID, "string"); (ty_Total, "uint64")] in H.
    in_tree; simpl; lia.
Defined.

(** ** Replacements that keep the length *)

Lemma splice_same_length b i j t b' :
  splice b i j t = Some b' → i + String.length t = j →
  length b' = length b ∧ ∀ k, ¬ (i ≤ k ∧ k < j) → b' !! k = b !! k.
Proof.
  intros H Hlen. pose proof (splice_length _ _ _ _ _ H) as Hl.
  apply splice_Some in H as (Hi & Hj & ->).
  split; [lia|]. intros k Hk.
  destruct (decide (k < i)) as [Hlt|Hge].
  - rewrite lookup_app_l by (rewrite length_take; lia).
    by apply lookup_take_lt.
  - rewrite lookup_app_r by (rewrite length_take; lia).
    rewrite lookup_app_r by (rewrite length_take, length_bytes; lia).
    rewrite lookup_drop, length_take, length_bytes. f_equal. lia.
Qed.

Lemma runEdits_same_length l b b' :
  runEdits l b = Some b' →
  (∀ ed, ed ∈ l → Pos ed.1 + String.length ed.2 = End ed.1) →
  length b' = length b
  ∧ ∀ k, (∀ ed, ed ∈ l → ¬ in_span ed.1 k) → b' !! k = b !! k.
Proof.
  revert b. induction l as [|ed l IH]; intros b Hrun Hlen.
  - by injection Hrun as <-.
  - rewrite runEdits_cons in Hrun.
    destruct (replaceType b ed.1 ed.2) as [b1|] eqn:H1; [|done]. simpl in Hrun.
    destruct (IH b1 Hrun) as [IHl IHk]; [intros x Hx; apply Hlen; by right|].
    destruct (splice_same_length _ _ _ _ _ H1 (Hlen ed ltac:(left))) as [Hl Hk].
    split; [lia|]. intros k Hout.
    rewrite IHk by (intros x Hx; apply Hout; by right).
    apply Hk. apply (Hout ed). left.
Qed.

(** X4. When every new text is as long as the span it replaces, the
    buffer keeps its length and every byte outside the replaced spans is
    the same after the call: the offsets of the tree stay valid. *)
Theorem EditStruct_same_length_frame structName fieldEdits e m err e1 :
  EditStruct structName fieldEdits e = Some (m, err, e1) →
  (∀ ty t, requested (file e) structName fieldEdits ty t →
           Pos ty + String.length t = End ty) →
  length (src e1) = length (src e)
  ∧ ∀ k, (∀ ty t, requested (file e) structName fieldEdits ty t →
                  ¬ in_span ty k) →
         src e1 !! k = src e !! k.
Proof.
  rewrite EditStruct_run.
  destruct (runEdits _ (src e)) as [b1|] eqn:Hrun; [|done].
  simpl. intros [= <- <- <-] Hlen. simpl.
  destruct (runEdits_same_length _ _ _ Hrun) as [Hl Hk].
  { intros [ty t] Hin. apply (Hlen ty t). by apply pendingEdits_elem. }
  split; [done|]. intros k Hout. apply Hk.
  intros [ty t] Hin. apply (Hout ty t). by apply pendingEdits_elem.
Qed.

Lemma EditStruct_same_length_frame_witness :
  length (bytes "package test; type Example struct { ID int64; Total uint64 }")
  = length (bytes src_readme).
Proof.
  apply (EditStruct_same_length_frame "Example" {[ "Total" := "uint64" ]}
           ed_readme true None
           (mkEditor file_readme
              (bytes "package test; type Example struct { ID int64; Total uint64 }")
              (imports ed_readme))).
  - reflexivity.
  - intros ty t H. apply pendingEdits_elem in H.
    change (pendingEdits (file ed_readme) "Example" {[ "Total" := "uint64" ]})
      with [(ty_Total, "uint64")] in H.
    in_tree. reflexivity.
Defined.

(** X5. A call returns, without a slice out of range, when every type
    it replaces lies inside the buffer and no new text is shorter than
    the span it replaces. *)
Theorem EditStruct_returns structName fieldEdits e :
  (∀ ty t, requested (file e) structName fieldEdits ty t →
           End ty - Pos ty ≤ String.length t
           ∧ Pos ty ≤ length (src e) ∧ End ty ≤ length (src e)) →
  ∃ m e1, EditStruct structName fieldEdits e = Some (m, None, e1).
Proof.
  intros H. rewrite EditStruct_run.
  destruct (runEdits_in_range (pendingEdits (file e) structName fieldEdits)
              (src e)) as [b1 ->].
  - intros [ty t] Hin. apply pendingEdits_elem in Hin. by apply H.
  - intros [ty t] Hin. apply pendingEdits_elem in Hin.
    destruct (H ty t Hin) as (_ & ? & ?). done.
  - by eexists _, _.
Qed.

Lemma EditStruct_returns_witness :
  ∃ m e1,
    EditStruct "Example" {[ "ID" := "string"; "Total" := "uint64" ]} ed_readme
    = Some (m, None, e1).
Proof.
  apply EditStruct_returns.
  intros ty t H. apply pendingEdits_elem in H.
  change (pendingEdits (file ed_readme) "Example"
            {[ "ID" := "string"; "Total" := "uint64" ]})
    with [(ty_ID, "string"); (ty_Total, "uint64")] in H.
  in_tree; vm_compute; repeat split; lia.
Defined.

(** X6. [StructNames] lists the name of every type specification of the
    file, whether its type is a struct or not, and nothing else. *)
Theorem StructNames_elem e name :
  name ∈ StructNames e ↔ ∃ ty, type_spec_of (file e) name ty.
Proof.
  split; [|intros [ty H]; by eapply type_spec_in_StructNames].
  unfold StructNames. rewrite list_elem_of_In, in_flat_map.
  intros ([gd| |] & Hd & Hin); try done.
  case_decide as Htok; [|done].
  apply in_flat_map in Hin as ([imp|n ty|] & Hs & Hin); try done.
  destruct Hin as [->|[]].
  exists ty, gd. repeat split; try done; by apply list_elem_of_In.
Qed.

(** * Further properties of the import manager *)

(** ** The aliases found at parse time *)

Lemma newImportManager_fold f :
  existing (newImportManager f) = fold_left bind_import (Imports f) ∅.
Proof. done. Qed.

Lemma fold_bind_keep l (ex : gmap string string) k :
  (∀ imp, imp ∈ l → importName imp ≠ k) →
  fold_left bind_import l ex !! k = ex !! k.
Proof.
  revert ex. induction l as [|x l IH]; intros ex H; simpl; [done|].
  rewrite IH by (intros imp Hin; apply H; by right).
  unfold bind_import. apply lookup_insert_ne. apply H. left.
Qed.

Lemma fold_bind_Some l (ex : gmap string string) k p :
  fold_left bind_import l ex !! k = Some p →
  ex !! k = Some p
  ∨ ∃ imp, imp ∈ l ∧ importName imp = k ∧ p = Trim "034" (PathValue imp).
Proof.
  revert ex. induction l as [|x l IH]; intros ex H; simpl in H; [by left|].
  destruct (IH _ H) as [Hex|(imp & Hin & Hk & Hp)].
  - unfold bind_import in Hex.
    destruct (decide (importName x = k)) as [Heq|Hne].
    + rewrite Heq, lookup_insert_eq in Hex. injection Hex as <-.
      right. exists x. split; [left|done].
    + rewrite lookup_insert_ne in Hex by done. by left.
  - right. exists imp. split; [by right|done].
Qed.

(** X7. The table built at parse time binds exactly the names of the
    import statements of the file; the path recorded for a name is the
    unquoted path of a statement with that name, and of the last one
    when several statements bind the same name. *)
Theorem newImportManager_bindings f k :
  (existing (newImportManager f) !! k = None
   ↔ ∀ imp, imp ∈ Imports f → importName imp ≠ k)
  ∧ (∀ p, existing (newImportManager f) !! k = Some p →
          ∃ imp, imp ∈ Imports f ∧ importName imp = k
                 ∧ p = Trim "034" (PathValue imp))
  ∧ (∀ l1 imp l2,
       Imports f = l1 ++ imp :: l2 → importName imp = k →
       (∀ imp', imp' ∈ l2 → importName imp' ≠ k) →
       existing (newImportManager f) !! k = Some (Trim "034" (PathValue imp))).
Proof.
  rewrite newImportManager_fold.
  assert (Hsome : ∀ p, fold_left bind_import (Imports f) ∅ !! k = Some p →
            ∃ imp, imp ∈ Imports f ∧ importName imp = k
                   ∧ p = Trim "034" (PathValue imp)).
  { intros p H. destruct (fold_bind_Some _ _ _ _ H) as [Hex|?]; [|done].
    by rewrite lookup_empty in Hex. }
  split; [|split; [done|]].
  - split.
    + intros Hnone imp Hin Hk.
      destruct (newImportManager_binds f imp Hin) as [v Hv].
      rewrite newImportManager_fold, Hk, Hnone in Hv. done.
    + intros H. rewrite fold_bind_keep by done. apply lookup_empty.
  - intros l1 imp l2 -> Hk Hl2.
    rewrite fold_left_app. simpl.
    rewrite fold_bind_keep by done.
    unfold bind_import at 1. rewrite Hk. apply lookup_insert_eq.
Qed.

Lemma newImportManager_bindings_witness :
  existing (newImportManager file_block) !! "t" = Some "time".
Proof.
  apply (proj2 (proj2 (newImportManager_bindings file_block "t"))
           [mkImport None (quoted "fmt")] (mkImport (Some "t") (quoted "time")) []).
  - reflexivity.
  - reflexivity.
  - intros imp' []%elem_of_nil.
Defined.

(** ** The default alias *)

Lemma Split_whole c s : absent c s → Split c s = [s].
Proof.
  induction s as [|a s IH]; intros H; simpl; [done|].
  rewrite decide_False by (intros ->; by apply (H "" s)).
  rewrite IH; [done|]. intros l r ->. by apply (H (String a l) r).
Qed.

Lemma Split_after c l r :
  ∃ seg rest, Split c (l +:+ String c r) = seg :: rest ∧ rest ≠ []
              ∧ List.last rest "" = List.last (Split c r) "".
Proof.
  assert (Hne : ∀ s, Split c s ≠ []).
  { intros [|a s]; simpl; [done|]. case_decide; [done|].
    by destruct (Split c s). }
  induction l as [|a l (seg & rest & IH & Hrest & Hlast)].
  - exists "", (Split c r). split; [|done].
    change ("" +:+ String c r) with (String c r). simpl.
    by rewrite decide_True.
  - rewrite append_cons. simpl. rewrite IH. case_decide.
    + exists "", (seg :: rest). split; [done|]. split; [done|].
      rewrite <- Hlast. by destruct rest.
    + by exists (String a seg), rest.
Qed.

Lemma TrimRight_snoc c s : absent c s → TrimRight c (s +:+ String c "") = s.
Proof.
  induction s as [|a s IH]; intros H.
  - change ("" +:+ String c "") with (String c ""). simpl.
    by rewrite decide_True.
  - rewrite append_cons. simpl. rewrite IH.
    2:{ intros l r ->. by apply (H (String a l) r). }
    destruct s; [|done].
    by rewrite decide_False by (intros ->; by apply (H "" "")).
Qed.

Lemma Trim_quoted s : absent "034" s → Trim "034" (quoted s) = s.
Proof.
  intros H. unfold Trim.
  change (quoted s) with (String "034" (s +:+ String "034" "")).
  simpl. destruct s as [|a s]; [done|].
  rewrite append_cons. simpl.
  rewrite decide_False by (intros ->; by apply (H "" s)).
  rewrite <- append_cons. by apply TrimRight_snoc.
Qed.

(** X8. The name bound by an import statement: an explicit name wins
    whatever the path; without one it is the text after the last slash
    of the unquoted path, and the whole path when it has no slash. *)
Theorem importName_default :
  (∀ name pathValue, importName (mkImport (Some name) pathValue) = name)
  ∧ (∀ dir seg,
       absent "034" (dir +:+ "/" +:+ seg) → absent "/" seg →
       importName (mkImport None (quoted (dir +:+ "/" +:+ seg))) = seg)
  ∧ (∀ seg,
       absent "034" seg → absent "/" seg →
       importName (mkImport None (quoted seg)) = seg).
Proof.
  split; [done|]. split.
  - intros dir seg Hq Hs. unfold importName. simpl.
    rewrite (Trim_quoted _ Hq).
    change ("/" +:+ seg) with (String "/" seg).
    destruct (Split_after "/" dir seg) as (s & rest & -> & Hne & Hlast).
    rewrite (Split_whole _ _ Hs) in Hlast. simpl in Hlast.
    rewrite <- Hlast. by destruct rest.
  - intros seg Hq Hs. unfold importName. simpl.
    by rewrite (Trim_quoted _ Hq), (Split_whole _ _ Hs).
Qed.

(** A literal in which the byte does not occur. *)
Ltac literal_absent :=
  let l := fresh "l" in
  let r := fresh "r" in
  let H := fresh "H" in
  intros l r H; cbv [String.append] in H;
  repeat (destruct l as [|? l]; [discriminate H|injection H as _ H]);
  by destruct l.

Lemma importName_default_witness :
  importName (mkImport None (quoted ("github.com/google" +:+ "/" +:+ "uuid")))
  = "uuid"
  ∧ importName (mkImport None (quoted "time")) = "time".
Proof.
  split.
  - apply (proj1 (proj2 importName_default)); literal_absent.
  - apply (proj2 (proj2 importName_default)); literal_absent.
Defined.

(** ** The delta and the table after a call *)

Lemma collect_union order (ex : gmap string string) :
  (collect order ex).2 = ex ∪ list_to_map order.
Proof.
  revert ex. induction order as [|[a p] order IH]; intros ex; simpl.
  { by rewrite (right_id_L ∅ (∪)). }
  destruct (ex !! a) as [v|] eqn:Ha.
  - rewrite IH. apply map_eq. intros k. rewrite !lookup_union.
    destruct (decide (a = k)) as [<-|Hne].
    + rewrite Ha, lookup_insert_eq. by destruct (list_to_map order !! a).
    + by rewrite lookup_insert_ne.
  - specialize (IH (<[a:=p]> ex)).
    destruct (collect order (<[a:=p]> ex)) as [toAdd ex']. simpl in *.
    rewrite IH. apply map_eq. intros k. rewrite !lookup_union.
    destruct (decide (a = k)) as [<-|Hne].
    + rewrite Ha, !lookup_insert_eq. by destruct (list_to_map order !! a).
    + by rewrite !lookup_insert_ne.
Qed.

Lemma collect_complete order (ex : gmap string string) a p :
  NoDup order.*1 → (a, p) ∈ order → ex !! a = None →
  mkSpec a p ∈ (collect order ex).1.
Proof.
  revert ex. induction order as [|[a' p'] order IH]; intros ex Hnd Hin Hex.
  { by apply elem_of_nil in Hin. }
  apply NoDup_cons in Hnd as [Hfresh Hnd]. simpl.
  apply elem_of_cons in Hin as [[= <- <-]|Hin].
  - rewrite Hex. destruct (collect order (<[a:=p]> ex)). left.
  - assert (a ≠ a') as Hne.
    { intros ->. apply Hfresh. apply list_elem_of_fmap. by exists (a', p). }
    destruct (ex !! a') as [v|] eqn:Ha'; [by apply IH|].
    specialize (IH (<[a':=p']> ex) Hnd Hin).
    destruct (collect order (<[a':=p']> ex)) as [toAdd ex']. simpl in *.
    right. apply IH. by rewrite lookup_insert_ne.
Qed.

Lemma order_of_map (required : gmap string string) order :
  order ≡ₚ map_to_list required →
  NoDup order.*1 ∧ list_to_map order = required
  ∧ ∀ a p, (a, p) ∈ order ↔ required !! a = Some p.
Proof.
  intros Hperm. split; [|split].
  - rewrite Hperm. apply NoDup_fst_map_to_list.
  - rewrite <- (list_to_map_to_list required).
    apply list_to_map_proper; [|done].
    rewrite Hperm. apply NoDup_fst_map_to_list.
  - intros a p. rewrite Hperm. apply elem_of_map_to_list.
Qed.

(** X9. The delta of a call is exactly the requested entries whose
    alias is not bound, each once, whatever the sequence in which the
    loop meets them. *)
Theorem delta_is_unbound_requests required order (ex : gmap string string) :
  order ≡ₚ map_to_list required →
  NoDup (collect order ex).1
  ∧ ∀ a p, mkSpec a p ∈ (collect order ex).1
           ↔ required !! a = Some p ∧ ex !! a = None.
Proof.
  intros Hperm. destruct (order_of_map _ _ Hperm) as (Hnd & _ & Hin).
  destruct (collect_toAdd order ex) as [Hnodup Hsound].
  split; [by eapply NoDup_fmap_1|].
  intros a p. split.
  - intros H. destruct (Hsound _ H) as [Hnone Ho]. simpl in *.
    split; [by apply Hin|done].
  - intros [Hreq Hex]. apply collect_complete; [done| |done]. by apply Hin.
Qed.

Lemma delta_is_unbound_requests_witness :
  mkSpec "time" "time" ∈ (collect [("time", "time")] ∅).1.
Proof.
  apply (proj2 (delta_is_unbound_requests {[ "time" := "time" ]}
                  [("time", "time")] ∅
                  ltac:(by rewrite map_to_list_singleton))).
  split; reflexivity.
Defined.

(** X10. After a call that returns, with an error or not, the table of
    bound aliases is the old table extended by the requests: an alias
    that was bound keeps its path, whatever path was requested for it,
    and every requested alias is bound. *)
Theorem AddImports_table required e err e1 :
  AddImports required e (Some (err, e1)) →
  existing (imports e1) = existing (imports e) ∪ required
  ∧ im_file (imports e1) = im_file (imports e)
  ∧ file e1 = file e.
Proof.
  intros (order & Hperm & H). symmetry in H.
  pose proof (AddImports_in_existing _ _ _ _ H) as Hex.
  destruct (order_of_map _ _ Hperm) as (_ & Hmap & _).
  split; [by rewrite Hex, collect_union, Hmap|].
  unfold AddImports_in in H.
  destruct (add order (imports e) (src e)) as [[[err' im1] b1]|] eqn:Hadd;
    [|done].
  simpl in H. injection H as <- <-. simpl. split; [|done].
  unfold add in Hadd.
  destruct (collect order (existing (imports e))) as [toAdd ex'].
  assert (Hfin : ∀ r : option (error * list byte),
            ('(err, b') ← r;
             Some (err, mkIM (im_file (imports e)) ex', b'))
            = Some (err', im1, b1) →
            im_file im1 = im_file (imports e)).
  { intros [[err0 b0]|]; simpl; [|done]. by intros [= _ <- _]. }
  destruct toAdd as [|s toAdd]; [by injection Hadd as _ <- _|].
  simpl in Hadd.
  destruct (Imports (im_file (imports e))); [by eapply Hfin|].
  destruct (findImportDecl _) as [gd|]; [|by eapply Hfin].
  case_decide; by eapply Hfin.
Qed.

Lemma AddImports_table_witness :
  existing (imports ed_block) ∪ {[ "t" := "text/template" ]}
  = existing (imports ed_block).
Proof.
  symmetry.
  apply (AddImports_table {[ "t" := "text/template" ]} ed_block None ed_block).
  exists [("t", "text/template")].
  split; [by rewrite map_to_list_singleton|reflexivity].
Defined.

(** ** Writing several new imports *)

(** X11. A call with a non-empty delta writes the new paths, quoted, one
    per line, in the sequence of the delta: as a new block of their own
    when the tree lists no import; after the entries of the first import
    declaration, replacing that declaration, when it has no
    parentheses; and after the entries of the block, replacing the text
    from [(] to [)], when it has. *)
Theorem AddImports_in_layouts order e :
  let im := imports e in
  let b := src e in
  let toAdd := (collect order (existing im)).1 in
  let done_ b' :=
    Some (None, mkEditor (file e) b'
                  (mkIM (im_file im) (collect order (existing im)).2)) in
  toAdd ≠ [] →
  (Imports (im_file im) = [] →
   findInsertPosition im ≤ length b →
   AddImports_in order e
   = done_ (take (findInsertPosition im) b
            ++ bytes (import_block (new_entries toAdd) +:+ nl +:+ nl)
            ++ drop (findInsertPosition im) b))
  ∧ (∀ gd,
       Imports (im_file im) ≠ [] → findImportDecl im = Some gd →
       Lparen gd = None →
       gPos gd ≤ length b → gEnd gd ≤ length b →
       AddImports_in order e
       = done_ (take (gPos gd) b
                ++ bytes (import_block
                            (map specString (Specs gd) ++ new_entries toAdd))
                ++ drop (gEnd gd) b))
  ∧ (∀ gd lp rp,
       Imports (im_file im) ≠ [] → findImportDecl im = Some gd →
       Lparen gd = Some lp → Rparen gd = Some rp →
       lp ≤ length b → rp < length b →
       AddImports_in order e
       = done_ (take lp b
                ++ bytes (paren_block
                            (map specString (Specs gd) ++ new_entries toAdd))
                ++ drop (rp + 1) b)).
Proof.
  intros im b toAdd done_ Hne. unfold AddImports_in, add.
  subst toAdd done_. fold im b.
  destruct (collect order (existing im)) as [toAdd ex']. simpl in Hne |- *.
  set (im' := mkIM (im_file im) ex').
  change (Imports (im_file im')) with (Imports (im_file im)).
  change (findImportDecl im') with (findImportDecl im).
  destruct toAdd as [|s toAdd]; [done|].
  split; [|split].
  - intros -> Hstart.
    unfold insertNewImportBlock.
    change (findInsertPosition im') with (findInsertPosition im).
    rewrite (insertNewImportBlock_text _ Hne).
    by rewrite splice_in_range.
  - intros gd Himp Hdecl Hl Hpos Hend.
    destruct (Imports (im_file im)); [done|].
    rewrite Hdecl, Hl.
    rewrite decide_False by (by intros [? ?]).
    unfold convertToBlock.
    change (findImportDecl_from (Decls (im_file im')))
      with (findImportDecl im). rewrite Hdecl.
    rewrite (convertToBlock_text _ _ Hne).
    by rewrite splice_in_range.
  - intros gd lp rp Himp Hdecl Hl Hr Hlp Hrp.
    destruct (Imports (im_file im)); [done|].
    rewrite Hdecl, Hl.
    rewrite decide_True by by eexists.
    unfold addToBlock.
    rewrite (addToBlock_text _ _ Hne), Hl, Hr.
    unfold b in *. by rewrite splice_in_range by (simpl; lia).
Qed.

Lemma AddImports_in_layouts_witness :
  AddImports_in [("time", "time"); ("uuid", "github.com/google/uuid")] ed_block
  = Some (None,
          mkEditor file_block
            (bytes ("package test; import (" +:+ nl
                    +:+ tab +:+ quoted "fmt" +:+ nl
                    +:+ tab +:+ "t " +:+ quoted "time" +:+ nl
                    +:+ tab +:+ quoted "time" +:+ nl
                    +:+ tab +:+ quoted "github.com/google/uuid" +:+ nl
                    +:+ "); type Example struct { ID int64 }"))
            (mkIM file_block
               (<["uuid" := "github.com/google/uuid"]>
                  (<["time" := "time"]> (existing (imports ed_block)))))).
Proof.
  destruct (AddImports_in_layouts
              [("time", "time"); ("uuid", "github.com/google/uuid")] ed_block
              ltac:(done)) as (_ & _ & H).
  rewrite (H decl_block 21 39);
    [reflexivity|done|reflexivity|reflexivity|reflexivity
    |vm_compute; lia|vm_compute; lia].
Defined.

(** ** A failed call *)

(** X12. When the tree lists import statements but has no import
    declaration and some requested alias is new, the call returns the
    error and leaves the buffer as it was, but the new aliases are
    recorded as bound all the same: the same request made again returns
    [nil] without writing anything. *)
Theorem AddImports_error_is_remembered required e out :
  Imports (im_file (imports e)) ≠ [] →
  findImportDecl (imports e) = None →
  (∃ a, is_Some (required !! a) ∧ existing (imports e) !! a = None) →
  AddImports required e out →
  ∃ e1, out = Some (Some "no import declaration found", e1)
        ∧ src e1 = src e
        ∧ ∀ out2, AddImports required e1 out2 → out2 = Some (None, e1).
Proof.
  intros Himp Hdecl (a & [p Hreq] & Hnew) (order & Hperm & ->).
  destruct (order_of_map _ _ Hperm) as (Hnd & _ & Hin).
  assert (Hdelta : mkSpec a p ∈ (collect order (existing (imports e))).1).
  { apply collect_complete; [done| |done]. by apply Hin. }
  pose proof (proj2 (collect_binds order (existing (imports e)))) as Hbinds.
  unfold AddImports_in, add.
  destruct (collect order (existing (imports e))) as [toAdd ex'].
  simpl in Hdelta, Hbinds.
  destruct toAdd as [|s toAdd]; [by apply elem_of_nil in Hdelta|].
  simpl. destruct (Imports (im_file (imports e))); [done|].
  change (findImportDecl (mkIM (im_file (imports e)) ex'))
    with (findImportDecl (imports e)).
  rewrite Hdecl. unfold convertToBlock.
  change (findImportDecl_from _) with (findImportDecl (imports e)).
  rewrite Hdecl. simpl.
  eexists. split; [done|]. split; [done|].
  intros out2 (order2 & Hperm2 & ->).
  apply AddImports_in_all_bound. simpl. intros a2 p2 Hin2.
  apply (Hbinds a2 p2). rewrite Hperm, <- Hperm2. done.
Qed.

Lemma AddImports_error_is_remembered_witness :
  ∃ e1, AddImports_in [("time", "time")] ed_orphan
        = Some (Some "no import declaration found", e1)
        ∧ src e1 = src ed_orphan
        ∧ ∀ out2, AddImports {[ "time" := "time" ]} e1 out2 →
                  out2 = Some (None, e1).
Proof.
  apply (AddImports_error_is_remembered {[ "time" := "time" ]} ed_orphan).
  - done.
  - reflexivity.
  - exists "time". split; [by eexists|reflexivity].
  - exists [("time", "time")]. by rewrite map_to_list_singleton.
Defined.

(** ** Where a new block goes *)

(** X13. The position of a new import block: the position of the first
    declaration that is a function or a general declaration other than
    an import, whatever follows it; the end of the file when there is no
    such declaration. *)
Theorem findInsertPosition_first_other im :
  (∀ pre d rest,
     Decls (im_file im) = pre ++ d :: rest →
     Forall passed_over pre → ¬ passed_over d →
     findInsertPosition im = declPos d)
  ∧ (Forall passed_over (Decls (im_file im)) →
     findInsertPosition im = FileEnd (im_file im)).
Proof.
  unfold findInsertPosition.
  generalize (FileEnd (im_file im)) as fileEnd.
  generalize (Decls (im_file im)) as decls. clear im.
  intros decls fileEnd. split.
  - intros pre d rest -> Hpre Hd.
    induction Hpre as [|x pre Hx Hpre IH]; simpl.
    + destruct d as [gd| |]; simpl in *; try done.
      by rewrite decide_False.
    + destruct x as [gd| |]; simpl in *; try done.
      by rewrite decide_True.
  - intros Hall. induction Hall as [|x l Hx Hall IH]; simpl; [done|].
    destruct x as [gd| |]; simpl in *; try done.
    by rewrite decide_True.
Qed.

Lemma findInsertPosition_first_other_witness :
  findInsertPosition (imports ed_single) = 28
  ∧ findInsertPosition (imports ed_orphan) = 12.
Proof.
  split.
  - apply (proj1 (findInsertPosition_first_other (imports ed_single))
             [DGen decl_single]
             (DGen (mkGenDecl 28 60 TYPE None None
                      [SType "Example"
                         (Some (mkStruct [mkField ["ID"] (Ident 53 58 "int64")]))]))
             []).
    + reflexivity.
    + constructor; [reflexivity|constructor].
    + simpl. discriminate.
  - apply (proj2 (findInsertPosition_first_other (imports ed_orphan))).
    constructor.
Defined.

(** * Further properties of the import inference *)

Lemma cut_Some_inv c s l r :
  cut c s = Some (l, r) → s = l +:+ String c r ∧ absent c l.
Proof.
  revert l. induction s as [|a s IH]; intros l H; simpl in H; [done|].
  case_decide as Hac.
  - injection H as <- <-. subst a. split; [done|].
    intros [|? ?] ? ?; discriminate.
  - destruct (cut c s) as [[l' r']|]; [|done]. injection H as <- <-.
    destruct (IH l' eq_refl) as [-> Habs]. split; [done|].
    intros [|x l1] r1 Heq.
    + injection Heq as -> _. done.
    + rewrite append_cons in Heq. injection Heq as _ Heq.
      by apply (Habs l1 r1).
Qed.

Lemma cut_None_inv c s : cut c s = None → absent c s.
Proof.
  induction s as [|a s IH]; intros H; simpl in H.
  - intros [|? ?] ? ?; discriminate.
  - case_decide as Hac; [done|].
    destruct (cut c s) as [[l' r']|] eqn:Hc; [done|].
    intros [|x l1] r1 Heq.
    + injection Heq as -> _. done.
    + rewrite append_cons in Heq. injection Heq as _ Heq.
      by apply (IH eq_refl l1 r1).
Qed.

Lemma star_prefix_cases t :
  (HasPrefix_star t = true ∧ t = "*" +:+ TrimPrefix_star t)
  ∨ (HasPrefix_star t = false ∧ TrimPrefix_star t = t
     ∧ ∀ u, t ≠ "*" +:+ u).
Proof.
  destruct t as [|c t]; [right; repeat split; by intros ?|].
  destruct (decide (c = "*"%char)) as [->|Hne]; [by left|].
  right. destruct c as [[] [] [] [] [] [] [] []];
    try done; repeat split; intros u [=].
Qed.

(** X14. The parts [ParseTypeString] returns put the trimmed input back
    together.  The pointer flag says whether the trimmed text starts
    with [*]; with a dot in what follows, the text is the star, the
    package, a dot and the type name, and the package has no dot;
    without one the package is empty and the text is the star and the
    type name. *)
Theorem ParseTypeString_parts (TrimSpace : string → string) s pkg name ptr :
  ParseTypeString TrimSpace s = (pkg, name, ptr) →
  let star := if ptr then "*" else "" in
  (ptr = true ↔ ∃ t, TrimSpace s = "*" +:+ t)
  ∧ ((TrimSpace s = star +:+ pkg +:+ "." +:+ name ∧ no_dot pkg)
     ∨ (TrimSpace s = star +:+ name ∧ pkg = "" ∧ no_dot name)).
Proof.
  unfold ParseTypeString. generalize (TrimSpace s) as t. clear s. intros t.
  assert (Hstrip : (if HasPrefix_star t then TrimPrefix_star t else t)
                   = TrimPrefix_star t).
  { destruct (star_prefix_cases t) as [[-> _]|(-> & -> & _)]; done. }
  rewrite Hstrip. unfold SplitN2_dot.
  assert (Hptr : HasPrefix_star t = true ↔ ∃ u, t = "*" +:+ u).
  { destruct (star_prefix_cases t) as [[-> Ht]|(-> & _ & Hno)].
    - split; [|done]. intros _. by eexists.
    - split; [done|]. intros [u Hu]. by destruct (Hno u). }
  assert (Hwhole : t = (if HasPrefix_star t then "*" else "")
                       +:+ TrimPrefix_star t).
  { destruct (star_prefix_cases t) as [[-> Ht]|(-> & -> & _)]; done. }
  destruct (cut "." (TrimPrefix_star t)) as [[l r]|] eqn:Hcut.
  - intros [= <- <- <-]. split; [done|]. left.
    apply cut_Some_inv in Hcut as [Heq Habs]. split; [|exact Habs].
    rewrite Hwhole at 1. by rewrite Heq.
  - intros [= <- <- <-]. split; [done|]. right.
    apply cut_None_inv in Hcut. split; [exact Hwhole|]. split; [done|].
    exact Hcut.
Qed.

Lemma ParseTypeString_parts_witness :
  ((true = true ↔ ∃ t, "*time.Time" = "*" +:+ t)
   ∧ (("*time.Time" = "*" +:+ "time" +:+ "." +:+ "Time" ∧ no_dot "time")
      ∨ ("*time.Time" = "*" +:+ "Time" ∧ "time" = "" ∧ no_dot "Time"))).
Proof.
  apply (ParseTypeString_parts (λ s, s) "*time.Time" "time" "Time" true).
  reflexivity.
Defined.

Lemma fold_self_insert (key : string → option string)
    (order : list (string * string)) (m : gmap string string) a p :
  (∀ k v, m !! k = Some v → v = k) →
  fold_left (λ acc kv, match key kv.2 with
                       | Some q => <[q := q]> acc
                       | None => acc
                       end) order m !! a = Some p
  ↔ p = a ∧ (m !! a = Some a ∨ ∃ kv, kv ∈ order ∧ key kv.2 = Some a).
Proof.
  revert m. induction order as [|kv order IH]; intros m Hm; simpl.
  { split.
    - intros H. pose proof (Hm _ _ H) as ->. auto.
    - intros [-> [H|(kv & []%elem_of_nil & _)]]. done. }
  destruct (key kv.2) as [q|] eqn:Hq.
  - rewrite IH.
    2:{ intros k v. destruct (decide (q = k)) as [->|Hne].
        - rewrite lookup_insert_eq. by intros [= <-].
        - rewrite lookup_insert_ne by done. apply Hm. }
    split.
    + intros [-> [H|(kv' & Hin & Hkv)]]; split; auto.
      * destruct (decide (q = a)) as [->|Hne].
        -- right. exists kv. split; [left|done].
        -- rewrite lookup_insert_ne in H by done. by left.
      * right. exists kv'. split; [by right|done].
    + intros [-> [H|(kv' & [->|Hin]%elem_of_cons & Hkv)]]; split; auto.
      * left. destruct (decide (q = a)) as [->|Hne].
        -- by rewrite lookup_insert_eq.
        -- by rewrite lookup_insert_ne.
      * left. rewrite Hq in Hkv. injection Hkv as ->.
        by rewrite lookup_insert_eq.
      * right. by exists kv'.
  - rewrite (IH m Hm). split.
    + intros [-> [H|(kv' & Hin & Hkv)]]; split; auto.
      right. exists kv'. split; [by right|done].
    + intros [-> [H|(kv' & [->|Hin]%elem_of_cons & Hkv)]]; split; auto.
      * by rewrite Hq in Hkv.
      * right. by exists kv'.
Qed.

Lemma fold_left_ext {A B : Type} (f g : A → B → A) (l : list B) (a : A) :
  (∀ x y, f x y = g x y) → fold_left f l a = fold_left g l a.
Proof.
  intros H. revert a. induction l as [|y l IH]; intros a; simpl; [done|].
  by rewrite H, IH.
Qed.

Lemma RequiredImports_in_lookup (TrimSpace : string → string) order a p :
  RequiredImports_in TrimSpace order !! a = Some p
  ↔ p = a ∧ a ≠ ""
    ∧ ∃ kv, kv ∈ order ∧ (ParseTypeString TrimSpace kv.2).1.1 = a.
Proof.
  unfold RequiredImports_in.
  set (key := λ t : string,
         let q := (ParseTypeString TrimSpace t).1.1 in
         if decide (q = "") then None else Some q).
  rewrite (fold_left_ext _
             (λ acc kv, match key kv.2 with
                        | Some q => <[q := q]> acc
                        | None => acc
                        end)).
  2:{ intros acc kv. unfold key.
      destruct (ParseTypeString TrimSpace kv.2) as [[q n] ptr].
      simpl. by case_decide. }
  rewrite (fold_self_insert key) by (intros ??; by rewrite lookup_empty).
  unfold key.
  rewrite lookup_empty. split.
  - intros [-> [H|(kv & Hin & Hkv)]]; [done|].
    simpl in Hkv. case_decide as Hq; [done|]. injection Hkv as <-.
    split; [done|]. split; [done|]. by exists kv.
  - intros (-> & Hne & kv & Hin & Hkv). split; [done|]. right.
    exists kv. split; [done|]. simpl. by rewrite Hkv, decide_False.
Qed.

Lemma map_eq_by_Some (m1 m2 : gmap string string) :
  (∀ a p, m1 !! a = Some p ↔ m2 !! a = Some p) → m1 = m2.
Proof.
  intros H. apply map_eq. intros a.
  destruct (m1 !! a) as [p|] eqn:H1.
  - symmetry. by apply H.
  - destruct (m2 !! a) as [p|] eqn:H2; [|done].
    apply H in H2. by rewrite H1 in H2.
Qed.

Lemma RequiredImports_lookup (TrimSpace : string → string) fieldEdits out a p :
  RequiredImports TrimSpace fieldEdits out →
  out !! a = Some p
  ↔ p = a ∧ a ≠ ""
    ∧ ∃ field t, fieldEdits !! field = Some t
                 ∧ (ParseTypeString TrimSpace t).1.1 = a.
Proof.
  intros (order & Hperm & ->). rewrite RequiredImports_in_lookup.
  destruct (order_of_map _ _ Hperm) as (_ & _ & Hin). split.
  - intros (-> & Hne & [field t] & Hkv & Hq).
    split; [done|]. split; [done|]. exists field, t.
    split; [by apply Hin|done].
  - intros (-> & Hne & field & t & Hf & Hq).
    split; [done|]. split; [done|]. exists (field, t).
    split; [by apply Hin|done].
Qed.

(** X15. The imports the editor infers from an edit mapping map each
    non-empty qualifier of a requested type to itself and hold nothing
    else, in particular never the empty name; the map is the same
    whatever the sequence in which the loop meets the entries. *)
Theorem RequiredImports_spec (TrimSpace : string → string) fieldEdits out :
  RequiredImports TrimSpace fieldEdits out →
  (∀ a p,
     out !! a = Some p
     ↔ p = a ∧ a ≠ ""
       ∧ ∃ field t, fieldEdits !! field = Some t
                    ∧ (ParseTypeString TrimSpace t).1.1 = a)
  ∧ ∀ out', RequiredImports TrimSpace fieldEdits out' → out' = out.
Proof.
  intros Hout. split; [intros a p; by apply RequiredImports_lookup|].
  intros out' Hout'. apply map_eq_by_Some. intros a p.
  by rewrite (RequiredImports_lookup _ _ _ a p Hout),
             (RequiredImports_lookup _ _ _ a p Hout').
Qed.

Lemma RequiredImports_spec_witness :
  RequiredImports_in (λ s, s) [("CreatedAt", "*time.Time")] !! "time"
  = Some "time".
Proof.
  apply (proj1 (RequiredImports_spec (λ s, s) {[ "CreatedAt" := "*time.Time" ]}
                  (RequiredImports_in (λ s, s) [("CreatedAt", "*time.Time")])
                  ltac:(exists [("CreatedAt", "*time.Time")];
                          by rewrite map_to_list_singleton))).
  split; [done|]. split; [done|].
  exists "CreatedAt", "*time.Time". split; reflexivity.
Defined.

(** X16. The imports of a configuration do not depend on the sequence
    in which the loop meets the fields: any two outcomes are the same
    map. *)
Theorem Imports_order_independent tc out1 out2 :
  config.Imports tc out1 → config.Imports tc out2 → out1 = out2.
Proof.
  intros (o1 & Hp1 & ->) (o2 & Hp2 & ->).
  apply map_eq_by_Some. intros a p. rewrite !Imports_in_lookup.
  split; intros [-> (kv & Hin & Hkv)]; (split; [done|]); exists kv;
    (split; [|done]).
  - by rewrite Hp2, <- Hp1.
  - by rewrite Hp1, <- Hp2.
Qed.

Lemma Imports_order_independent_witness :
  config.Imports_in [("A", "time.Time"); ("B", "uuid.UUID")]
  = config.Imports_in [("B", "uuid.UUID"); ("A", "time.Time")].
Proof.
  assert (Hnd : NoDup ([("A", "time.Time"); ("B", "uuid.UUID")].*1)).
  { simpl. apply NoDup_cons. split; [|apply NoDup_singleton].
    by intros [=]%list_elem_of_singleton. }
  apply (Imports_order_independent
           (config.mkTypeConfig "Example"
              (list_to_map [("A", "time.Time"); ("B", "uuid.UUID")]))).
  - exists [("A", "time.Time"); ("B", "uuid.UUID")]. split; [|done].
    cbn [config.Fields_of]. symmetry. by apply map_to_list_to_map.
  - exists [("B", "uuid.UUID"); ("A", "time.Time")]. split; [|done].
    cbn [config.Fields_of]. rewrite (map_to_list_to_map _ Hnd).
    apply Permutation_swap.
Defined.

(** X17. The two inferences agree except on the empty qualifier.  For an
    edit mapping whose type strings have no surrounding white space, the
    imports the editor infers are the imports of the configuration
    without the entry for the empty name, which only the configuration
    makes (for a type string such as [.T]). *)
Theorem RequiredImports_vs_Imports (TrimSpace : string → string) tc out1 out2 :
  (∀ field t, config.Fields_of tc !! field = Some t → TrimSpace t = t) →
  RequiredImports TrimSpace (config.Fields_of tc) out1 →
  config.Imports tc out2 →
  out1 = delete "" out2.
Proof.
  intros Htrim Hreq (o2 & Hp2 & ->).
  destruct (order_of_map _ _ Hp2) as (_ & _ & Hin2).
  apply map_eq_by_Some. intros a p.
  rewrite (RequiredImports_lookup _ _ _ a p Hreq).
  destruct (decide ("" = a)) as [<-|Hne].
  { rewrite lookup_delete_eq. split; [by intros (_ & ? & _)|done]. }
  rewrite lookup_delete_ne, Imports_in_lookup by done.
  split.
  - intros (-> & _ & field & t & Hf & Hq). split; [done|].
    exists (field, t). split; [by apply Hin2|]. simpl.
    rewrite ParseTypeString_pkgPath, (Htrim _ _ Hf) in Hq.
    destruct (parseQualifiedType_cases t) as [H0|[q H0]];
      rewrite H0 in Hq |- *; simpl in Hq; by subst.
  - intros [-> ([field t] & Hin & Hkv)]. split; [done|]. split; [done|].
    apply Hin2 in Hin. exists field, t. split; [done|].
    rewrite ParseTypeString_pkgPath, (Htrim _ _ Hin).
    simpl in Hkv. by rewrite Hkv.
Qed.

Lemma RequiredImports_vs_Imports_witness :
  RequiredImports_in (λ s, s) [("A", ".T")] = delete "" (config.Imports_in [("A", ".T")]).
Proof.
  apply (RequiredImports_vs_Imports (λ s, s)
           (config.mkTypeConfig "Example" {[ "A" := ".T" ]})).
  - done.
  - exists [("A", ".T")]. cbn [config.Fields_of].
    by rewrite map_to_list_singleton.
  - exists [("A", ".T")]. cbn [config.Fields_of].
    by rewrite map_to_list_singleton.
Defined.

Example empty_qualifier :
  config.Imports_in [("A", ".T")] = {[ "" := "" ]}
  ∧ RequiredImports_in (λ s, s) [("A", ".T")] = ∅.
Proof. split; reflexivity. Qed.

(** * Replacements that keep the length: the new texts *)

Lemma splice_middle b i j t b' :
  splice b i j t = Some b' → take (String.length t) (drop i b') = bytes t.
Proof.
  intros (Hi & Hj & ->)%splice_Some.
  rewrite drop_app_ge by (rewrite length_take; lia).
  rewrite length_take, Nat.min_l, Nat.sub_diag, drop_0 by lia.
  rewrite take_app_le by (rewrite length_bytes; lia).
  apply take_ge. rewrite length_bytes. lia.
Qed.

Lemma take_drop_agree (b1 b2 : list byte) i n :
  length b1 = length b2 →
  (∀ k, i ≤ k → k < i + n → b1 !! k = b2 !! k) →
  take n (drop i b1) = take n (drop i b2).
Proof.
  intros Hlen H. apply list_eq. intros k.
  destruct (decide (k < n)) as [Hk|Hk].
  - rewrite !lookup_take_lt, !lookup_drop by done. apply H; lia.
  - by rewrite !lookup_take_ge by lia.
Qed.

Lemma runEdits_texts l b b' :
  runEdits l b = Some b' →
  (∀ ed, ed ∈ l → Pos ed.1 + String.length ed.2 = End ed.1) →
  (∀ x y, x ∈ l → y ∈ l → apart x y) →
  ∀ ed, ed ∈ l → take (String.length ed.2) (drop (Pos ed.1) b') = bytes ed.2.
Proof.
  revert b. induction l as [|x l IH]; intros b Hrun Hlen Hapart ed Hed.
  { by apply elem_of_nil in Hed. }
  rewrite runEdits_cons in Hrun.
  destruct (replaceType b x.1 x.2) as [b1|] eqn:H1; [|done]. simpl in Hrun.
  destruct (decide (ed ∈ l)) as [Hin|Hnotin].
  { apply (IH b1); try done.
    - intros y Hy. apply Hlen. by right.
    - intros y z Hy Hz. apply Hapart; by right. }
  apply elem_of_cons in Hed as [->|Hed]; [|done].
  destruct (runEdits_same_length _ _ _ Hrun) as [Hl Hk].
  { intros y Hy. apply Hlen. by right. }
  rewrite <- (splice_middle _ _ _ _ _ H1).
  apply take_drop_agree; [done|]. intros k Hk1 Hk2.
  apply Hk. intros y Hy Hspan.
  destruct (Hapart x y ltac:(left) ltac:(by right)) as [->|Hdis]; [done|].
  apply (Hdis k). split; [|done].
  pose proof (Hlen x ltac:(left)). unfold in_span. lia.
Qed.

(** X18. When every new text is as long as the span it replaces and the
    replaced spans do not overlap, every replaced span holds its new
    text after the call: for such edits the result is the one the
    contract of the splice engine asks for, whatever their number. *)
Theorem EditStruct_same_length_texts structName fieldEdits e m err e1 :
  EditStruct structName fieldEdits e = Some (m, err, e1) →
  (∀ ty t, requested (file e) structName fieldEdits ty t →
           Pos ty + String.length t = End ty) →
  (∀ ty1 t1 ty2 t2,
     requested (file e) structName fieldEdits ty1 t1 →
     requested (file e) structName fieldEdits ty2 t2 →
     apart (ty1, t1) (ty2, t2)) →
  ∀ ty t, requested (file e) structName fieldEdits ty t →
          take (String.length t) (drop (Pos ty) (src e1)) = bytes t.
Proof.
  rewrite EditStruct_run.
  destruct (runEdits _ (src e)) as [b1|] eqn:Hrun; [|done].
  simpl. intros [= <- <- <-] Hlen Hapart ty t Hreq. simpl.
  apply (runEdits_texts _ _ _ Hrun) with (ed := (ty, t)).
  - intros [ty' t'] Hin. apply (Hlen ty' t'). by apply pendingEdits_elem.
  - intros [ty1 t1] [ty2 t2] H1 H2.
    apply Hapart; by apply pendingEdits_elem.
  - by apply pendingEdits_elem.
Qed.

Lemma EditStruct_same_length_texts_witness :
  take 6 (drop 52
            (bytes "package test; type Example struct { ID uint8; Total uint64 }"))
  = bytes "uint64".
Proof.
  assert (Hpend : pendingEdits (file ed_readme) "Example"
                    {[ "ID" := "uint8"; "Total" := "uint64" ]}
                  = [(ty_ID, "uint8"); (ty_Total, "uint64")]) by reflexivity.
  apply (EditStruct_same_length_texts "Example"
           {[ "ID" := "uint8"; "Total" := "uint64" ]} ed_readme true None
           (mkEditor file_readme
              (bytes "package test; type Example struct { ID uint8; Total uint64 }")
              (imports ed_readme)) ltac:(by vm_compute))
    with (ty := ty_Total) (t := "uint64").
  - intros ty t H. apply pendingEdits_elem in H. rewrite Hpend in H.
    in_tree; reflexivity.
  - intros ty1 t1 ty2 t2 H1 H2.
    apply pendingEdits_elem in H1, H2. rewrite Hpend in H1, H2.
    in_tree; try (by left); right; intros k; unfold in_span; simpl; lia.
  - apply pendingEdits_elem. rewrite Hpend. right. left.
Defined.

(** * The file finder *)

Lemma HasSuffix_spec s suffix :
  HasSuffix s suffix = true ↔ ∃ pre, s = pre +:+ suffix.
Proof.
  split.
  - induction s as [|a s IH]; simpl; case_decide as Heq.
    + intros _. by exists "".
    + done.
    + intros _. by exists "".
    + intros [pre ->]%IH. by exists (String a pre).
  - intros [pre ->]. induction pre as [|a pre IH].
    + change ("" +:+ suffix) with suffix.
      destruct suffix; simpl; repeat case_decide; done.
    + rewrite append_cons. simpl. by case_decide.
Qed.

(** X19. The file finder of the command.  An error of the directory
    listing is returned with no file.  Otherwise there is no error and
    the files returned are, in the order of the listing, the names of
    the entries that are not directories, end in [.go] and do not end in
    [_test.go]. *)
Theorem findGoFiles_spec :
  (∀ err, findGoFiles (inr err) = ([], Some err))
  ∧ ∀ entries,
      (findGoFiles (inl entries)).2 = None
      ∧ (findGoFiles (inl entries)).1 `sublist_of` map entryName entries
      ∧ ∀ name,
          name ∈ (findGoFiles (inl entries)).1
          ↔ ∃ entry, entry ∈ entries ∧ entryName entry = name
                     ∧ IsDir entry = false
                     ∧ (∃ base, name = base +:+ ".go")
                     ∧ ¬ ∃ base, name = base +:+ "_test.go".
Proof.
  split; [done|]. intros entries. split; [done|]. split.
  - simpl. induction entries as [|x l IH]; simpl; [done|].
    destruct (IsDir x); simpl; [by apply sublist_cons|].
    destruct (HasSuffix _ ".go" && negb (HasSuffix _ "_test.go")); simpl.
    + by apply sublist_skip.
    + by apply sublist_cons.
  - intros name. simpl. rewrite list_elem_of_In, in_flat_map. split.
    + intros (entry & Hin & Hname). exists entry.
      split; [by apply list_elem_of_In|].
      destruct (IsDir entry); [done|].
      destruct (HasSuffix (entryName entry) ".go") eqn:Hgo; [|done].
      destruct (HasSuffix (entryName entry) "_test.go") eqn:Htest; [done|].
      destruct Hname as [<-|[]]. repeat split; try done.
      * by apply HasSuffix_spec.
      * intros Hex. apply HasSuffix_spec in Hex. by rewrite Htest in Hex.
    + intros (entry & Hin & <- & Hdir & Hgo & Htest).
      exists entry. split; [by apply list_elem_of_In|].
      rewrite Hdir. apply HasSuffix_spec in Hgo. rewrite Hgo.
      destruct (HasSuffix (entryName entry) "_test.go") eqn:Ht.
      * destruct Htest. by apply HasSuffix_spec.
      * by left.
Qed.

Example findGoFiles_example :
  findGoFiles (inl [mkDirEntry "a.go" false; mkDirEntry "a_test.go" false;
                    mkDirEntry "pkg.go" true; mkDirEntry "_test.go" false;
                    mkDirEntry "go" false; mkDirEntry ".go" false;
                    mkDirEntry "b.go" false])
  = (["a.go"; ".go"; "b.go"], None).
Proof. reflexivity. Qed.

(** * Calls in sequence *)

(** X20. Calls of [EditStruct] in sequence, for the same or for another
    struct, are one pass over the replacements of all of them: the later
    call decides from the parse-time tree and makes its replacements at
    the parse-time offsets on the buffer the earlier call left. *)
Theorem EditStruct_sequence name1 edits1 name2 edits2 e m1 err1 e1 :
  EditStruct name1 edits1 e = Some (m1, err1, e1) →
  let pend1 := pendingEdits (file e) name1 edits1 in
  let pend2 := pendingEdits (file e) name2 edits2 in
  EditStruct name2 edits2 e1
  = (λ b, (nonempty pend2, None, mkEditor (file e) b (imports e)))
      <$> runEdits (pend1 ++ pend2) (src e).
Proof.
  intros H pend1 pend2. rewrite EditStruct_run in H. fold pend1 in H.
  rewrite runEdits_app.
  destruct (runEdits pend1 (src e)) as [b1|]; [|done].
  simpl in H. injection H as _ _ <-.
  by rewrite EditStruct_run.
Qed.

Lemma EditStruct_sequence_witness :
  EditStruct "Example" {[ "Total" := "uint64" ]}
    (mkEditor file_readme
       (bytes "package test; type Example struct { ID string; Total *int64 }")
       (imports ed_readme))
  = Some (true, None,
          mkEditor file_readme
            (bytes "package test; type Example struct { ID string; Totaluint644 }")
            (imports ed_readme)).
Proof.
  rewrite (EditStruct_sequence "Example" {[ "ID" := "string" ]}
             "Example" {[ "Total" := "uint64" ]} ed_readme true None
             (mkEditor file_readme
                (bytes "package test; type Example struct { ID string; Total *int64 }")
                (imports ed_readme)) ltac:(by vm_compute)).
  by vm_compute.
Defined.

(** * Where the code departs from the specification *)

Example chan_spans :
  slice (bytes src_chan) (Pos ty_array) (End ty_array) = "[5]int"
  ∧ slice (bytes src_chan) (Pos ty_chan) (End ty_chan) = "chan int"
  ∧ typeString ty_array = "[]int"
  ∧ typeString ty_chan = "".
Proof. vm_compute. done. Qed.

Example raw_spans :
  slice (bytes src_raw) (gPos decl_raw) (gEnd decl_raw) = "import `fmt`".
Proof. vm_compute. done. Qed.


(** C5. An alias bound in the file by an import whose path is a raw
    string literal is not recognised.  The statement [import `fmt`]
    binds [fmt]; [newImportManager] removes double quotes only and
    enters the name with its back quotes, so a request for [fmt] counts
    as new and a second entry for [fmt] is written.  With the path in
    double quotes the same request changes nothing. *)
Theorem raw_import_added_twice :
  spec_alias (mkImport None "`fmt`") = "fmt"
  ∧ importName (mkImport None "`fmt`") = "`fmt`"
  ∧ existing (imports ed_raw) !! "fmt" = None
  ∧ (∀ out,
       AddImports {[ "fmt" := "fmt" ]} ed_raw out ↔
       out = Some (None,
                   mkEditor file_raw
                     (bytes ("package test; import (" +:+ nl
                             +:+ tab +:+ "`fmt`" +:+ nl
                             +:+ tab +:+ quoted "fmt" +:+ nl
                             +:+ "); type Example struct { ID int64 }"))
                     (mkIM file_raw
                        (<["fmt" := "fmt"]> (existing (imports ed_raw))))))
  ∧ spec_alias (mkImport None (quoted "fmt")) = "fmt"
  ∧ (∀ out,
       AddImports {[ "fmt" := "fmt" ]} ed_single out ↔
       out = Some (None, ed_single)).
Proof.
  assert (Hone : ∀ e out,
            AddImports {[ "fmt" := "fmt" ]} e out
            ↔ out = AddImports_in [("fmt", "fmt")] e).
  { intros e out. split.
    - by intros (order & ->%singleton_order & ->).
    - intros ->. exists [("fmt", "fmt")]. by rewrite map_to_list_singleton. }
  split; [by vm_compute|]. split; [by vm_compute|]. split; [by vm_compute|].
  split; [|split; [by vm_compute|]].
  - intros out. rewrite Hone.
    by replace (AddImports_in [("fmt", "fmt")] ed_raw)
      with (Some (None : error,
                  mkEditor file_raw
                    (bytes ("package test; import (" +:+ nl
                            +:+ tab +:+ "`fmt`" +:+ nl
                            +:+ tab +:+ quoted "fmt" +:+ nl
                            +:+ "); type Example struct { ID int64 }"))
                    (mkIM file_raw
                       (<["fmt" := "fmt"]> (existing (imports ed_raw))))))
      by by vm_compute.
  - intros out. rewrite Hone.
    by replace (AddImports_in [("fmt", "fmt")] ed_single)
      with (Some (None : error, ed_single)) by by vm_compute.
Qed.

Lemma ParseTypeString_qualifier (TrimSpace : string → string) t :
  (ParseTypeString TrimSpace t).1.1 = default "" (spec_qualifier (TrimSpace t)).
Proof.
  rewrite ParseTypeString_pkgPath.
  unfold config.parseQualifiedType, spec_qualifier, SplitN2_dot.
  by destruct (cut "." (TrimPrefix_star (TrimSpace t))) as [[l r]|].
Qed.

(** C8, as stated, holds of the inference of the configuration only.
    The editor's own inference trims white space before it looks for the
    pointer marker, so for [ a.B] it finds the qualifier [a] where the
    claim's steps give [ a]; and it records no import for an empty
    qualifier, so for [.T], where a dot is found, its result is empty
    where the claim's steps (and the configuration) give the empty name
    as alias and path. *)
Lemma editor_inference_differs :
  spec_qualifier " a.B" = Some " a"
  ∧ config.parseQualifiedType " a.B" = (" a", " a", true)
  ∧ ParseTypeString TrimSpace_ascii " a.B" = ("a", "B", false)
  ∧ spec_qualifier ".T" = Some ""
  ∧ config.Imports_in [("A", ".T")] = {[ "" := "" ]}
  ∧ RequiredImports_in TrimSpace_ascii [("A", ".T")] = ∅.
Proof. vm_compute. repeat split; done. Qed.

(** C8, as the code has it.  The inference of the configuration
    ([parseQualifiedType], [Imports]) strips one leading [*] and splits
    at the first dot: with a dot, the text before it is returned as the
    alias and as the path; without one nothing is returned; the imports
    map exactly these qualifiers to themselves and are empty when no
    field type has a dot.  The inference of the editor
    ([ParseTypeString], [RequiredImports]) first trims the white space
    around the type string and then does the same: with a dot it returns
    the qualifier and the rest, without one an empty package; its
    imports map exactly the non-empty qualifiers of the trimmed type
    strings to themselves and are empty when no trimmed type string has
    a dot. *)
Theorem import_inference_both_sides (TrimSpace : string → string) :
  (∀ t, TrimPrefix_star ("*" +:+ t) = t)
  ∧ (∀ s, (∀ t, s ≠ "*" +:+ t) → TrimPrefix_star s = s)
  ∧ (∀ s q r,
       TrimPrefix_star s = q +:+ "." +:+ r → no_dot q →
       config.parseQualifiedType s = (q, q, true))
  ∧ (∀ s, no_dot (TrimPrefix_star s) →
          config.parseQualifiedType s = ("", "", false))
  ∧ (∀ tc out a pkg,
       config.Imports tc out →
       (out !! a = Some pkg ↔
        pkg = a ∧ ∃ field t,
                    config.Fields_of tc !! field = Some t
                    ∧ spec_qualifier t = Some a))
  ∧ (∀ tc out,
       config.Imports tc out →
       (∀ field t, config.Fields_of tc !! field = Some t →
                   no_dot (TrimPrefix_star t)) →
       out = ∅)
  ∧ (∀ s q r,
       TrimPrefix_star (TrimSpace s) = q +:+ "." +:+ r → no_dot q →
       ParseTypeString TrimSpace s = (q, r, HasPrefix_star (TrimSpace s)))
  ∧ (∀ s, no_dot (TrimPrefix_star (TrimSpace s)) →
          ParseTypeString TrimSpace s
          = ("", TrimPrefix_star (TrimSpace s), HasPrefix_star (TrimSpace s)))
  ∧ (∀ fieldEdits out a pkg,
       RequiredImports TrimSpace fieldEdits out →
       (out !! a = Some pkg ↔
        pkg = a ∧ a ≠ ""
        ∧ ∃ field t, fieldEdits !! field = Some t
                     ∧ spec_qualifier (TrimSpace t) = Some a))
  ∧ (∀ fieldEdits out,
       RequiredImports TrimSpace fieldEdits out →
       (∀ field t, fieldEdits !! field = Some t →
                   no_dot (TrimPrefix_star (TrimSpace t))) →
       out = ∅).
Proof.
  destruct qualified_type_inference as (H1 & H2 & H3 & H4 & H5 & H6).
  assert (Hstrip : ∀ t, (if HasPrefix_star t then TrimPrefix_star t else t)
                        = TrimPrefix_star t).
  { intros t. destruct (star_prefix_cases t) as [[-> _]|(-> & -> & _)]; done. }
  assert (Hq : ∀ t a, config.parseQualifiedType t = (a, a, true)
                      ↔ spec_qualifier t = Some a).
  { intros t a. unfold config.parseQualifiedType, spec_qualifier, SplitN2_dot.
    destruct (cut "." (TrimPrefix_star t)) as [[l r]|]; [|done].
    split; [by intros [= ->]|by intros [= ->]]. }
  split; [done|]. split; [done|]. split; [done|]. split; [done|].
  split; [|split; [done|]].
  { intros tc out a pkg Hout. rewrite (H5 tc out a pkg Hout).
    split; intros [-> (field & t & Hf & Ht)]; (split; [done|]);
      exists field, t; (split; [done|]); by apply Hq. }
  split; [|split; [|split]].
  - intros s q r Hs Hno. unfold ParseTypeString, SplitN2_dot.
    rewrite Hstrip, Hs. change ("." +:+ r) with (String "." r).
    rewrite cut_found; [done|]. intros l1 r1. apply Hno.
  - intros s Hno. unfold ParseTypeString, SplitN2_dot.
    rewrite Hstrip, cut_missing; [done|]. intros l r. apply Hno.
  - intros fieldEdits out a pkg Hout.
    rewrite (RequiredImports_lookup _ _ _ a pkg Hout).
    split.
    + intros (-> & Hne & field & t & Hf & Ht). split; [done|]. split; [done|].
      exists field, t. split; [done|].
      rewrite ParseTypeString_qualifier in Ht.
      destruct (spec_qualifier (TrimSpace t)) as [q|]; simpl in Ht; by subst.
    + intros (-> & Hne & field & t & Hf & Ht). split; [done|]. split; [done|].
      exists field, t. split; [done|].
      by rewrite ParseTypeString_qualifier, Ht.
  - intros fieldEdits out Hout Hall. apply map_eq. intros a.
    rewrite lookup_empty.
    destruct (out !! a) as [pkg|] eqn:Ha; [|done].
    apply (RequiredImports_lookup _ _ _ a pkg Hout) in Ha
      as (-> & Hne & field & t & Hf & Ht).
    rewrite ParseTypeString_qualifier in Ht. unfold spec_qualifier in Ht.
    rewrite cut_missing in Ht; [done|].
    intros l r. apply (Hall field t Hf).
Qed.

Lemma import_inference_both_sides_witness :
  TrimPrefix_star "int64" = "int64"
  ∧ config.parseQualifiedType "*time.Time" = ("time", "time", true)
  ∧ config.parseQualifiedType "int64" = ("", "", false)
  ∧ config.Imports_in
      (map_to_list ({[ "Total" := "uint64" ]} : gmap string string)) = ∅
  ∧ ParseTypeString TrimSpace_ascii "  *time.Time " = ("time", "Time", true)
  ∧ ParseTypeString TrimSpace_ascii " int64 " = ("", "int64", false)
  ∧ RequiredImports_in TrimSpace_ascii
      (map_to_list ({[ "Total" := " uint64" ]} : gmap string string)) = ∅.
Proof.
  pose proof (import_inference_both_sides TrimSpace_ascii)
    as (_ & H2 & H3 & H4 & _ & H6 & H7 & H8 & _ & H10).
  split; [|split; [|split; [|split; [|split; [|split]]]]].
  - apply H2. intros t H. cbv [String.append] in H. discriminate H.
  - apply (H3 "*time.Time" "time" "Time"); [reflexivity|literal_no_dot].
  - apply H4. change (TrimPrefix_star "int64") with "int64". literal_no_dot.
  - apply (H6 (config.mkTypeConfig "Example" {[ "Total" := "uint64" ]})).
    + by eexists.
    + cbn [config.Fields_of]. intros field t [_ <-]%lookup_singleton_Some.
      change (TrimPrefix_star "uint64") with "uint64". literal_no_dot.
  - apply (H7 "  *time.Time " "time" "Time"); [reflexivity|literal_no_dot].
  - apply (H8 " int64 ").
    change (TrimPrefix_star (TrimSpace_ascii " int64 ")) with "int64".
    literal_no_dot.
  - apply (H10 {[ "Total" := " uint64" ]}).
    + by eexists.
    + intros field t [_ <-]%lookup_singleton_Some.
      change (TrimPrefix_star (TrimSpace_ascii " uint64")) with "uint64".
      literal_no_dot.
Defined.

Example TrimSpace_ascii_examples :
  TrimSpace_ascii "  *string  " = "*string"
  ∧ TrimSpace_ascii "a b" = "a b"
  ∧ TrimSpace_ascii (tab +:+ "x" +:+ nl) = "x"
  ∧ TrimSpace_ascii "   " = "".
Proof. vm_compute. done. Qed.
